(** * botdetect: request aggregation, block heuristic and blacklists

    A shallow embedding of the Go package [botdetect] and of its command
    line front end.  Go values are modelled as follows.

    - [uint64] counters are integers in [Z] with the wrap-around at [2^64]
      written out ([u64_add]);
    - [float64] is the IEEE 754 binary64 format, taken from the standard
      library's executable specification ([SpecFloat], precision 53,
      [emax] 1024);
    - [time.Time] is an instant in [Z] and [time.Duration] a difference of
      instants;
    - [map[string]T] is a [gmap string T]; a map value that may be [nil]
      is a [GoMap];
    - [container/list] and the singly linked expiry list are Rocq lists,
      front element first;
    - the functions of Go's [net] and [strings] packages that the program
      calls are the fields of the interface [NetLib]. *)

From Stdlib Require Import ZArith List Bool Ascii String Lia.
From Stdlib Require Import Floats.SpecFloat.
From stdpp Require Import base gmap strings list sorting.

Open Scope Z_scope.

(** ** Machine integers *)

Module U64.

Definition modulus : Z := 2 ^ 64.

Definition wrap (x : Z) : Z := x mod modulus.

(** [x + y] on [uint64]. *)
Definition add (x y : Z) : Z := wrap (x + y).

(** [x++] on [uint64]. *)
Definition incr (x : Z) : Z := add x 1.

Definition in_range (x : Z) : Prop := 0 <= x < modulus.

End U64.

(** ** float64 *)

Module F64.

Definition prec : Z := 53.
Definition emax : Z := 1024.

Definition float64 := spec_float.

(** The conversion [float64(n)] of a [uint64]: round to nearest, ties to
    even. *)
Definition of_uint64 (n : Z) : float64 := binary_normalize prec emax n 0 false.

Definition div (x y : float64) : float64 := SFdiv prec emax x y.

(** Go's [x > y] on [float64]: false as soon as one side is NaN. *)
Definition gt (x y : float64) : bool := SFltb y x.

Definition one : float64 := S754_finite false 4503599627370496 (-52).

(** Go's [x >= y] and [x < y] on [float64]. *)
Definition ge (x y : float64) : bool := SFleb y x.
Definition lt (x y : float64) : bool := SFltb x y.

(** The default of the flag [max-ratio], the double nearest to 0.85. *)
Definition default_max_ratio : float64 :=
  S754_finite false 7656119366529843 (-53).

End F64.

(** ** Regular expressions and the asset classifier

    [regexp.MustCompile] and [MatchString] of Go's [regexp] package, for
    the fragment the program uses: literal characters, concatenation and
    alternation, searched for at every position of the subject.  The
    pattern has ASCII literals only, so matching bytes and matching UTF-8
    code points agree. *)

Module Regexp.

Inductive regex : Type :=
| Eps
| Chr (c : ascii)
| Cat (r1 r2 : regex)
| Alt (r1 r2 : regex).

Fixpoint lit (s : string) : regex :=
  match s with
  | EmptyString => Eps
  | String c s' => Cat (Chr c) (lit s')
  end.

(** The words of a regular expression. *)
Inductive denotes : regex -> string -> Prop :=
| den_eps : denotes Eps ""
| den_chr c : denotes (Chr c) (String c "")
| den_cat r1 r2 w1 w2 :
    denotes r1 w1 -> denotes r2 w2 -> denotes (Cat r1 r2) (w1 +:+ w2)
| den_alt_l r1 r2 w : denotes r1 w -> denotes (Alt r1 r2) w
| den_alt_r r1 r2 w : denotes r2 w -> denotes (Alt r1 r2) w.

(** Backtracking matcher: every remainder left after a prefix of [s]
    that is a word of [r]. *)
Fixpoint prefix_matches (r : regex) (s : string) : list string :=
  match r with
  | Eps => [s]
  | Chr c =>
      match s with
      | String c' s' => if Ascii.eqb c c' then [s'] else []
      | EmptyString => []
      end
  | Cat r1 r2 => flat_map (prefix_matches r2) (prefix_matches r1 s)
  | Alt r1 r2 => prefix_matches r1 s ++ prefix_matches r2 s
  end.

Definition matches_here (r : regex) (s : string) : bool :=
  match prefix_matches r s with
  | [] => false
  | _ :: _ => true
  end.

(** Unanchored search, as the method [MatchString] does. *)
Fixpoint MatchString (r : regex) (s : string) : bool :=
  matches_here r s ||
  match s with
  | EmptyString => false
  | String _ s' => MatchString r s'
  end.

(** The spec's reading of a match: [p] occurs somewhere in [s]. *)
Definition occurs_in (p s : string) : Prop :=
  exists pre post, s = pre +:+ p +:+ post.

End Regexp.

(** [\.(jpg|png|css|js|gif|ico)] *)
Definition assetRegexp : Regexp.regex :=
  Regexp.Cat (Regexp.Chr ".")
    (Regexp.Alt (Regexp.lit "jpg")
      (Regexp.Alt (Regexp.lit "png")
        (Regexp.Alt (Regexp.lit "css")
          (Regexp.Alt (Regexp.lit "js")
            (Regexp.Alt (Regexp.lit "gif") (Regexp.lit "ico")))))).

Inductive Classification : Type := Application | Asset.

(** The branch of [process] that chooses between [hi.Other++] and
    [hi.App++]. *)
Definition classify (url : string) : Classification :=
  if Regexp.MatchString assetRegexp url then Asset else Application.

(** The patterns as the specification lists them. *)
Definition asset_patterns : list string :=
  [".jpg"; ".png"; ".css"; ".js"; ".gif"; ".ico"].

(** ** Go's standard library

    The program calls [net.ParseIP], [IP.To16], [IP.String],
    [net.ParseCIDR], [IPNet.Contains] and [strings.TrimSpace].  Their code
    is not part of the repository; the development is parametric in
    them. *)

Class NetLib : Type := {
  (** [net.IP]: a byte slice, possibly [nil]. *)
  IP : Type;
  (** [ip == nil] *)
  is_nil : IP -> bool;
  (** [net.ParseIP(s)], [nil] when [s] is no address. *)
  ParseIP : string -> IP;
  (** [ip.To16()], [nil] when [ip] has no 16 byte form. *)
  To16 : IP -> IP;
  (** [ip.String()] *)
  IP_String : IP -> string;
  (** [*net.IPNet] *)
  IPNet : Type;
  (** The network returned by [net.ParseCIDR(s)]. *)
  ParseCIDR : string -> IPNet;
  (** [n.Contains(ip)] *)
  Contains : IPNet -> IP -> bool;
  (** [strings.TrimSpace(s)] *)
  TrimSpace : string -> string
}.

(** [strings.Split(s, sep)] for a separator of one byte: the pieces
    between the occurrences of [sep], one more than there are
    occurrences. *)
Fixpoint Split (sep : ascii) (s : string) : list string :=
  match s with
  | EmptyString => [EmptyString]
  | String c s' =>
      if Ascii.eqb c sep then EmptyString :: Split sep s'
      else match Split sep s' with
           | [] => [String c EmptyString]
           | f :: fs => String c f :: fs
           end
  end.

(** A Go map value: [nil], or an allocated table.  Reading a [nil] map
    finds nothing; writing to it panics. *)
Inductive GoMap (V : Type) : Type :=
| nil_map
| mk_map (m : gmap string V).
Arguments nil_map {V}.
Arguments mk_map {V} m.

(** The result of code that may panic. *)
Inductive outcome (A : Type) : Type :=
| Done (a : A)
| Panic (msg : string).
Arguments Done {A} a.
Arguments Panic {A} msg.

Definition map_get {V} (m : GoMap V) (k : string) : option V :=
  match m with
  | nil_map => None
  | mk_map t => t !! k
  end.

Definition map_set {V} (m : GoMap V) (k : string) (v : V) : outcome (GoMap V) :=
  match m with
  | nil_map => Panic "assignment to entry in nil map"
  | mk_map t => Done (mk_map (<[k := v]> t))
  end.

(** ** Buckets and the code shared by the two history engines *)

(** [IPHistoryItem]; [HistoryItem] has the same fields. *)
Record IPHistoryItem : Type := {
  Timestamp : Z;
  Count : Z;
  App : Z;
  Other : Z
}.

Definition HistoryItem : Type := IPHistoryItem.

(** [Request] *)
Record Request `{NetLib} : Type := {
  URL : string;
  ReqIP : IP
}.

(** [t.After(cutoff)] *)
Definition After (t cutoff : Z) : bool := cutoff <? t.

(** [t.Before(now)] *)
Definition Before (t now : Z) : bool := t <? now.

(** The loop labelled [INNER], on the list read from its back: the back
    element is removed until one lies after the cutoff. *)
Fixpoint drop_expired (cutoff : Z) (from_back : list IPHistoryItem)
  : list IPHistoryItem :=
  match from_back with
  | [] => []
  | back :: rest =>
      if After (Timestamp back) cutoff then from_back
      else drop_expired cutoff rest
  end.

Definition expire_old (cutoff : Z) (counts : list IPHistoryItem)
  : list IPHistoryItem :=
  rev (drop_expired cutoff (rev counts)).

(** The loop [for node := counts.Front(); node != nil; node = node.Next()]
    that adds [Count] to [total] and [App] to [app]. *)
Fixpoint count_from (total app : Z) (counts : list IPHistoryItem) : Z * Z :=
  match counts with
  | [] => (total, app)
  | node :: next =>
      count_from (U64.add total (Count node)) (U64.add app (App node)) next
  end.

Definition count_requests (counts : list IPHistoryItem) : Z * Z :=
  count_from 0 0 counts.

(** [app > MaxRequests && float64(total)/float64(app) > MaxRatio] *)
Definition block_condition (MaxRequests : Z) (MaxRatio : F64.float64)
    (total app : Z) : bool :=
  (MaxRequests <? app) &&
  F64.gt (F64.div (F64.of_uint64 total) (F64.of_uint64 app)) MaxRatio.

(** The update of the front bucket in [process]: a bucket for the current
    slot is pushed when the list is empty or its front has another
    timestamp, then the front bucket counts the request. *)
Definition bump (c : Classification) (hi : IPHistoryItem) : IPHistoryItem :=
  {| Timestamp := Timestamp hi;
     Count := U64.incr (Count hi);
     App := match c with Asset => App hi | Application => U64.incr (App hi) end;
     Other := match c with Asset => U64.incr (Other hi) | Application => Other hi end |}.

Definition fresh_item (slot : Z) : IPHistoryItem :=
  {| Timestamp := slot; Count := 0; App := 0; Other := 0 |}.

Definition record_request (currentSlot : Z) (url : string)
    (counts : list IPHistoryItem) : list IPHistoryItem :=
  match counts with
  | head :: rest =>
      if Z.eqb (Timestamp head) currentSlot
      then bump (classify url) head :: rest
      else bump (classify url) (fresh_item currentSlot) :: counts
  | [] => [bump (classify url) (fresh_item currentSlot)]
  end.

(** ** The engine behind [NewHistory]

    Its blacklist is a Go map from the address to [true], rebuilt by every
    run of [calculate]. *)

Module History.

Record HistoryOptions : Type := {
  TimeSlot : Z;
  Window : Z;
  Interval : Z;
  MaxRequests : Z;
  MaxRatio : F64.float64
}.

Record t : Type := {
  options : HistoryOptions;
  data : gmap string (list HistoryItem);
  blacklist : GoMap bool;
  currentSlot : Z
}.

(** [new(Blacklist)]: a pointer to the zero value of the map type, which
    is the [nil] map. *)
Definition new_Blacklist : GoMap bool := nil_map.

(** [NewHistory], at a clock reading already truncated to the slot. *)
Definition NewHistory (o : HistoryOptions) (slot : Z) : t :=
  {| options := o; data := ∅; blacklist := new_Blacklist;
     currentSlot := slot |}.

(** [setTimestamp], one firing of its timer. *)
Definition setTimestamp (slot : Z) (h : t) : t :=
  {| options := options h; data := data h; blacklist := blacklist h;
     currentSlot := slot |}.

Definition IsBlacklisted (h : t) (ip : string) : bool :=
  match map_get (blacklist h) ip with
  | Some _ => true
  | None => false
  end.

(** One request taken from the channel by [process].  The list is
    created under the key [ip.To16().String()] and read back under
    [ip.String()]; calling [Front] on the missing list is a nil
    dereference. *)
Definition process `{NetLib} (req : Request) (h : t) : outcome t :=
  let ip := ReqIP req in
  let d :=
    match data h !! IP_String ip with
    | Some _ => data h
    | None => <[IP_String (To16 ip) := []]> (data h)
    end in
  match d !! IP_String ip with
  | None => Panic "invalid memory address or nil pointer dereference"
  | Some counts =>
      Done {| options := options h;
              data := <[IP_String ip :=
                          record_request (currentSlot h) (URL req) counts]> d;
              blacklist := blacklist h;
              currentSlot := currentSlot h |}
  end.

(** The body of the loop over [h.data] in [calculate], for one entry. *)
Definition calculate_ip (o : HistoryOptions) (cutoff : Z)
    (ip : string) (counts : list HistoryItem)
    (acc : gmap string (list HistoryItem) * GoMap bool)
  : outcome (gmap string (list HistoryItem) * GoMap bool) :=
  let '(d, bl) := acc in
  let counts' := expire_old cutoff counts in
  let d' :=
    if (Z.of_nat (length counts') <=? 0)%Z then delete ip d
    else <[ip := counts']> d in
  let '(total, app) := count_requests counts' in
  if block_condition (MaxRequests o) (MaxRatio o) total app
  then match map_set bl ip true with
       | Done bl' => Done (d', bl')
       | Panic msg => Panic msg
       end
  else Done (d', bl).

Fixpoint calculate_range (o : HistoryOptions) (cutoff : Z)
    (entries : list (string * list HistoryItem))
    (acc : gmap string (list HistoryItem) * GoMap bool)
  : outcome (gmap string (list HistoryItem) * GoMap bool) :=
  match entries with
  | [] => Done acc
  | (ip, counts) :: more =>
      match calculate_ip o cutoff ip counts acc with
      | Done acc' => calculate_range o cutoff more acc'
      | Panic msg => Panic msg
      end
  end.

(** One firing of the timer in [calculate], at the clock reading [now],
    visiting the entries of [h.data] in the order [entries]. *)
Definition calculate_in_order (now : Z)
    (entries : list (string * list HistoryItem)) (h : t) : outcome t :=
  let cutoff := now + (-1) * Window (options h) in
  match calculate_range (options h) cutoff entries (data h, new_Blacklist) with
  | Done (d, bl) =>
      Done {| options := options h; data := d; blacklist := bl;
              currentSlot := currentSlot h |}
  | Panic msg => Panic msg
  end.

Definition calculate (now : Z) (h : t) : outcome t :=
  calculate_in_order now (map_to_list (data h)) h.

End History.

(** ** The blacklist with a time to live

    [data] is the hash map of blocked addresses, [expiry] the singly
    linked list of their expiry instants, in the order of insertion. *)

Module Blacklist.

Record blacklistIP : Type := {
  bIP : string;
  Expires : Z
}.

Record t : Type := {
  ttl : Z;
  expireInterval : Z;
  data : gmap string bool;
  expiry : list blacklistIP
}.

Definition NewBlacklist (ttl expireInterval : Z) : t :=
  {| ttl := ttl; expireInterval := expireInterval; data := ∅; expiry := [] |}.

(** [ip.To16().String()], the key of an address. *)
Definition key `{NetLib} (ip : IP) : string := IP_String (To16 ip).

(** [Set], with [now] the reading of [time.Now()]. *)
Definition Set_ `{NetLib} (now : Z) (ip : IP) (bl : t) : t :=
  let ipstr := key ip in
  match data bl !! ipstr with
  | Some _ => bl
  | None =>
      {| ttl := ttl bl;
         expireInterval := expireInterval bl;
         data := <[ipstr := true]> (data bl);
         expiry := expiry bl ++ [{| bIP := ipstr; Expires := now + ttl bl |}] |}
  end.

Definition Size (bl : t) : nat := size (data bl).

Definition IsBlacklisted `{NetLib} (bl : t) (ip : IP) : bool :=
  match data bl !! key ip with
  | Some _ => true
  | None => false
  end.

(** The loop of [expire]: the first element of [expiry] is removed, and
    its address with it, as long as it expired before [now]. *)
Fixpoint expire_loop (now : Z) (d : gmap string bool)
    (ex : list blacklistIP) : gmap string bool * list blacklistIP :=
  match ex with
  | [] => (d, [])
  | blip :: rest =>
      if Before (Expires blip) now
      then expire_loop now (delete (bIP blip) d) rest
      else (d, ex)
  end.

Definition expire (now : Z) (bl : t) : t :=
  let '(d, ex) := expire_loop now (data bl) (expiry bl) in
  {| ttl := ttl bl; expireInterval := expireInterval bl;
     data := d; expiry := ex |}.

End Blacklist.

(** ** The engine behind [NewIPHistory] *)

Module IPHistory.

Record IPHistoryOptions : Type := {
  TimeSlot : Z;
  Window : Z;
  Interval : Z;
  ExpireInterval : Z;
  BlacklistTTL : Z;
  MaxRequests : Z;
  MaxRatio : F64.float64
}.

Record t : Type := {
  options : IPHistoryOptions;
  data : gmap string (list IPHistoryItem);
  blacklist : Blacklist.t;
  currentSlot : Z;
  updatedIPs : gmap string bool
}.

Definition NewIPHistory (o : IPHistoryOptions) (slot : Z) : t :=
  {| options := o; data := ∅;
     blacklist := Blacklist.NewBlacklist (BlacklistTTL o) (ExpireInterval o);
     currentSlot := slot; updatedIPs := ∅ |}.

Definition setTimestamp (slot : Z) (h : t) : t :=
  {| options := options h; data := data h; blacklist := blacklist h;
     currentSlot := slot; updatedIPs := updatedIPs h |}.

Definition IsBlacklisted `{NetLib} (h : t) (ip : IP) : bool :=
  Blacklist.IsBlacklisted (blacklist h) ip.

(** One request taken from the channel by [process]. *)
Definition process `{NetLib} (req : Request) (h : t) : t :=
  let ipstr := Blacklist.key (ReqIP req) in
  let counts :=
    match data h !! ipstr with
    | Some counts => counts
    | None => []
    end in
  {| options := options h;
     data := <[ipstr := record_request (currentSlot h) (URL req) counts]> (data h);
     blacklist := blacklist h;
     currentSlot := currentSlot h;
     updatedIPs := <[ipstr := true]> (updatedIPs h) |}.

(** The body of the loop over [h.data] in [expire], for one entry. *)
Definition expire_ip (cutoff : Z) (d : gmap string (list IPHistoryItem))
    (entry : string * list IPHistoryItem) : gmap string (list IPHistoryItem) :=
  let '(ip, counts) := entry in
  let counts' := expire_old cutoff counts in
  if (Z.of_nat (length counts') <=? 0)%Z then delete ip d
  else <[ip := counts']> d.

(** One turn of the loop of [expire]: the cutoff is read from the clock
    at [started], when the turn begins; the timer fires at [fired],
    [ExpireInterval] later at the earliest, and only then is the map
    swept, in the order [entries]. *)
Definition expire_in_order (started fired : Z)
    (entries : list (string * list IPHistoryItem)) (h : t) : t :=
  let cutoff := started + (-1) * Window (options h) in
  {| options := options h;
     data := fold_left (expire_ip cutoff) entries (data h);
     blacklist := blacklist h;
     currentSlot := currentSlot h;
     updatedIPs := updatedIPs h |}.

Definition expire (started fired : Z) (h : t) : t :=
  expire_in_order started fired (map_to_list (data h)) h.

(** The body of the loop over [updated] in [calculate], for one key;
    [set_at] is the reading of the clock inside [Set]. *)
Definition calculate_ip `{NetLib} (o : IPHistoryOptions) (cutoff : Z)
    (set_at : string -> Z)
    (acc : gmap string (list IPHistoryItem) * Blacklist.t) (ip : string)
  : gmap string (list IPHistoryItem) * Blacklist.t :=
  let '(d, bl) := acc in
  match d !! ip with
  | None => (d, bl)
  | Some counts =>
      let counts' := expire_old cutoff counts in
      let d' :=
        if (Z.of_nat (length counts') <=? 0)%Z then delete ip d
        else <[ip := counts']> d in
      let '(total, app) := count_requests counts' in
      if block_condition (MaxRequests o) (MaxRatio o) total app
      then (d', Blacklist.Set_ (set_at ip) (ParseIP ip) bl)
      else (d', bl)
  end.

(** One firing of the timer in [calculate] at the clock reading [now]:
    the set of updated keys is taken and replaced by an empty one, then
    its keys are visited in the order [ips]. *)
Definition calculate_in_order `{NetLib} (now : Z) (set_at : string -> Z)
    (ips : list string) (h : t) : t :=
  let cutoff := now + (-1) * Window (options h) in
  let '(d, bl) :=
    fold_left (calculate_ip (options h) cutoff set_at) ips
      (data h, blacklist h) in
  {| options := options h; data := d; blacklist := bl;
     currentSlot := currentSlot h; updatedIPs := ∅ |}.

Definition calculate `{NetLib} (now : Z) (set_at : string -> Z) (h : t) : t :=
  calculate_in_order now set_at (map fst (map_to_list (updatedIPs h))) h.

(** What [calculate] adds up for one list at the cutoff: the totals of
    the buckets that the loop [INNER] leaves. *)
Definition totals (cutoff : Z) (counts : list IPHistoryItem) : Z * Z :=
  count_requests (expire_old cutoff counts).

End IPHistory.

(** ** The command line front end *)

Module Main.

Definition ok : string := "OK".
Definition block : string := "BLOCK".

Definition privateNetworks : list string :=
  ["127.0.0.0/8"; "10.0.0.0/8"; "172.16.0.0/12"; "192.168.0.0/16";
   "::1/128"; "fe80::/10"; "fc00::/7"].

Section WithNet.
Context `{NetLib}.

(** [NewIP] *)
Definition NewIP : list IPNet := map ParseCIDR privateNetworks.

(** [IsPrivate] *)
Fixpoint IsPrivate (nets : list IPNet) (ip : IP) : bool :=
  match nets with
  | [] => false
  | n :: more => if Contains n ip then true else IsPrivate more ip
  end.

Definition parseIP (s : string) : IP := To16 (ParseIP s).

(** The addresses a line contributes: the remote address, then the
    entries of the forwarded-for list, each kept when it parses and is
    not private. *)
Definition keep (privIP : list IPNet) (s : string) : list string :=
  let parsed := parseIP s in
  if negb (is_nil parsed) && negb (IsPrivate privIP parsed)
  then [IP_String parsed] else [].

Definition candidates (privIP : list IPNet) (remote xff : string)
  : list string :=
  keep privIP remote ++
  flat_map (fun x => keep privIP (TrimSpace x)) (Split "," xff).

(** The loop over [ips] that stops at the first blacklisted one. *)
Fixpoint decide_ips (history : History.t) (ips : list string) : string :=
  match ips with
  | [] => ok
  | ip :: more =>
      if History.IsBlacklisted history ip then block
      else decide_ips history more
  end.

(** What one turn of the loop over the input lines does. *)
Record turn : Type := {
  (** the lines written to standard output *)
  written : list string;
  (** the requests sent to [history.RequestChannel()] *)
  sent : list Request;
  (** the history the turn leaves *)
  after : History.t
}.

(** The body of [for scanner.Scan()] in [main].  It reads the
    blacklist and writes one line; it has no statement that sends to
    the request channel. *)
Definition main_line (privIP : list IPNet) (history : History.t)
    (line : string) : turn :=
  let fields := Split "|" line in
  if (Z.of_nat (length fields) <? 2)%Z
  then {| written := [ok]; sent := []; after := history |}
  else
    let remote := nth 0 fields EmptyString in
    let xff := nth 1 fields EmptyString in
    let ips := candidates privIP remote xff in
    {| written := [decide_ips history ips]; sent := []; after := history |}.

End WithNet.

End Main.

(** ** An instance of the library interface

    Addresses are byte lists, the empty list standing for [nil].  The
    instance parses and prints the dotted decimal notation of IPv4 and
    knows the seven networks of [privateNetworks]; it serves the worked
    examples below. *)

Module IPv4.

Definition digit (c : ascii) : option Z :=
  let n := Z.of_nat (nat_of_ascii c) in
  if (48 <=? n) && (n <=? 57) then Some (n - 48) else None.

Fixpoint dec_from (acc : Z) (s : string) : option Z :=
  match s with
  | EmptyString => Some acc
  | String c s' =>
      match digit c with
      | Some d => dec_from (10 * acc + d) s'
      | None => None
      end
  end.

(** A decimal number below 256 without a leading zero. *)
Definition octet (s : string) : option Z :=
  match s with
  | EmptyString => None
  | String c s' =>
      if Ascii.eqb c "0" && negb (String.eqb s' "") then None
      else if (3 <? Z.of_nat (String.length s)) then None
      else match dec_from 0 s with
           | Some v => if v <=? 255 then Some v else None
           | None => None
           end
  end.

Definition v4InV6Prefix : list Z := [0; 0; 0; 0; 0; 0; 0; 0; 0; 0; 255; 255].

Definition parse_ip (s : string) : list Z :=
  match Split "." s with
  | [a; b; c; d] =>
      match octet a, octet b, octet c, octet d with
      | Some a, Some b, Some c, Some d => v4InV6Prefix ++ [a; b; c; d]
      | _, _, _, _ => []
      end
  | _ => []
  end.

Definition to4 (ip : list Z) : list Z :=
  if Nat.eqb (length ip) 4 then ip
  else if Nat.eqb (length ip) 16 && bool_decide (take 12 ip = v4InV6Prefix)
  then drop 12 ip else [].

Definition to16 (ip : list Z) : list Z :=
  if Nat.eqb (length ip) 4 then v4InV6Prefix ++ ip
  else if Nat.eqb (length ip) 16 then ip else [].

Definition digit_char (d : Z) : ascii := ascii_of_nat (Z.to_nat (48 + d)).

Definition dec_string (n : Z) : string :=
  if n <? 10 then String (digit_char n) ""
  else if n <? 100 then String (digit_char (n / 10)) (String (digit_char (n mod 10)) "")
  else String (digit_char (n / 100))
         (String (digit_char (n / 10 mod 10)) (String (digit_char (n mod 10)) "")).

Definition ip_string (ip : list Z) : string :=
  match ip with
  | [] => "<nil>"
  | _ =>
      match to4 ip with
      | [a; b; c; d] =>
          dec_string a +:+ "." +:+ dec_string b +:+ "." +:+
          dec_string c +:+ "." +:+ dec_string d
      | _ => "?"
      end
  end.

(** A network: its number and its mask. *)
Definition ipnet : Type := list Z * list Z.

Definition parse_cidr (s : string) : ipnet :=
  if String.eqb s "127.0.0.0/8" then ([127; 0; 0; 0], [255; 0; 0; 0])
  else if String.eqb s "10.0.0.0/8" then ([10; 0; 0; 0], [255; 0; 0; 0])
  else if String.eqb s "172.16.0.0/12" then ([172; 16; 0; 0], [255; 240; 0; 0])
  else if String.eqb s "192.168.0.0/16" then ([192; 168; 0; 0], [255; 255; 0; 0])
  else if String.eqb s "::1/128"
    then ([0; 0; 0; 0; 0; 0; 0; 0; 0; 0; 0; 0; 0; 0; 0; 1], repeat 255 16)
  else if String.eqb s "fe80::/10"
    then (254 :: 128 :: repeat 0 14, 255 :: 192 :: repeat 0 14)
  else if String.eqb s "fc00::/7"
    then (252 :: repeat 0 15, 254 :: repeat 0 15)
  else ([], []).

Fixpoint masked_eq (nn m ip : list Z) : bool :=
  match nn, m, ip with
  | n :: nn', k :: m', i :: ip' =>
      Z.eqb (Z.land n k) (Z.land i k) && masked_eq nn' m' ip'
  | _, _, _ => true
  end.

Definition contains (n : ipnet) (ip : list Z) : bool :=
  let ip := match to4 ip with [] => ip | x => x end in
  if negb (Nat.eqb (length ip) (length (fst n))) then false
  else masked_eq (fst n) (snd n) ip.

(** Leading and trailing blanks are removed. *)
Fixpoint trim_left (s : string) : string :=
  match s with
  | String c s' => if Ascii.eqb c " " then trim_left s' else s
  | EmptyString => s
  end.

Fixpoint trim_right (s : string) : string :=
  match s with
  | String c s' =>
      match trim_right s' with
      | EmptyString => if Ascii.eqb c " " then "" else String c ""
      | t => String c t
      end
  | EmptyString => s
  end.

#[global] Instance net : NetLib := {|
  IP := list Z;
  is_nil := fun ip => match ip with [] => true | _ => false end;
  ParseIP := parse_ip;
  To16 := to16;
  IP_String := ip_string;
  IPNet := ipnet;
  ParseCIDR := parse_cidr;
  Contains := contains;
  TrimSpace := fun s => trim_right (trim_left s)
|}.

End IPv4.

(** ** Timed histories of a blacklist

    The blacklist is driven by the decision run, which calls [Set], and by
    [expireLoop], which calls [expire] each time its timer fires.  A trace
    lists these calls with the clock reading of each. *)

Module Trace.

Inductive event `{NetLib} : Type :=
| EvSet (ip : IP)
| EvExpire.

Section WithNet.
Context `{NetLib}.

Definition step (now : Z) (ev : event) (bl : Blacklist.t) : Blacklist.t :=
  match ev with
  | EvSet ip => Blacklist.Set_ now ip bl
  | EvExpire => Blacklist.expire now bl
  end.

Fixpoint run (tr : list (Z * event)) (bl : Blacklist.t) : Blacklist.t :=
  match tr with
  | [] => bl
  | (now, ev) :: more => run more (step now ev bl)
  end.

(** The clock readings never decrease, the first being [from] at the
    least. *)
Fixpoint chrono (from : Z) (tr : list (Z * event)) : bool :=
  match tr with
  | [] => true
  | (now, _) :: more => (from <=? now) && chrono now more
  end.

Definition chronological (tr : list (Z * event)) : bool :=
  match tr with
  | [] => true
  | (now, _) :: _ => chrono now tr
  end.

(** The calls made up to the instant [T], that instant included. *)
Definition upto (T : Z) (tr : list (Z * event)) : list (Z * event) :=
  List.filter (fun e => fst e <=? T) tr.

(** [expire] is called at an instant after [lo] and no later than
    [hi]. *)
Definition sweep_between (lo hi : Z) (tr : list (Z * event)) : bool :=
  existsb (fun e =>
             match snd e with
             | EvExpire => (lo <? fst e) && (fst e <=? hi)
             | EvSet _ => false
             end) tr.

(** The clock readings of the calls of [expire]. *)
Definition sweep_times (tr : list (Z * event)) : list Z :=
  map fst (List.filter (fun e => match snd e with
                                 | EvExpire => true
                                 | EvSet _ => false
                                 end) tr).

(** [expireLoop]: each turn of the loop waits on
    [time.After(bl.expireInterval)] and then calls [expire].  The timer
    of a turn is made when the turn begins, that is when the loop starts
    or when the sweep of the turn before has returned, and it fires
    [interval] later at the earliest.  [sweeps] are the clock readings
    of the sweeps of a loop whose next turn begins no earlier than
    [armed]; the loop leaves at [ctx.Done()], so the list is finite. *)
Fixpoint expireLoop (interval armed : Z) (sweeps : list Z) : bool :=
  match sweeps with
  | [] => true
  | now :: more => (armed + interval <=? now) && expireLoop interval now more
  end.

(** [Set] is not called for the key [k] after the instant [lo]. *)
Definition no_set_after (k : string) (lo : Z) (tr : list (Z * event)) : bool :=
  forallb (fun e =>
             match snd e with
             | EvSet ip => negb (String.eqb (Blacklist.key ip) k) || (fst e <=? lo)
             | EvExpire => true
             end) tr.

End WithNet.

End Trace.

(** The line of the spec's scenario, with a path added as third field. *)
Definition scenario_line : string := "192.168.1.1|8.8.8.8|/index.html".

Definition default_options : History.HistoryOptions :=
  {| History.TimeSlot := 60; History.Window := 3600; History.Interval := 5;
     History.MaxRequests := 30; History.MaxRatio := F64.default_max_ratio |}.

(** Forty requests for pages and two for assets, all from 203.0.113.5. *)
Definition scenario_requests : list Request :=
  repeat {| URL := "/index.html"; ReqIP := ParseIP "203.0.113.5" |} 40 ++
  repeat {| URL := "/site.css"; ReqIP := ParseIP "203.0.113.5" |} 2.

Fixpoint process_all (reqs : list Request) (h : History.t) : outcome History.t :=
  match reqs with
  | [] => Done h
  | req :: more =>
      match History.process req h with
      | Done h' => process_all more h'
      | Panic msg => Panic msg
      end
  end.

Definition scenario_history : History.t :=
  {| History.options := default_options;
     History.data :=
       {[ "203.0.113.5" :=
            [{| Timestamp := 0; Count := 42; App := 40; Other := 2 |}] ]};
     History.blacklist := nil_map;
     History.currentSlot := 0 |}.

(** ** Invariants of the blacklist *)

Module BlacklistInv.
Import Blacklist.

Definition expires_le (e1 e2 : blacklistIP) : Prop := Expires e1 <= Expires e2.

(** What holds of a blacklist at the clock reading [now], however it was
    driven: the expiry list is ordered by expiry instant, no instant lies
    further ahead than the time to live, every listed address is in
    [data], and no address is listed twice. *)
Definition reach_inv (now : Z) (bl : t) : Prop :=
  StronglySorted expires_le (expiry bl) /\
  Forall (fun e => Expires e <= now + ttl bl) (expiry bl) /\
  Forall (fun e => data bl !! bIP e <> None) (expiry bl) /\
  NoDup (map bIP (expiry bl)).

(** What holds of the key [k], inserted with the expiry instant [X],
    as long as [Set] is not called for it after [X]. *)
Definition track (k : string) (X : Z) (now : Z) (bl : t) : Prop :=
  StronglySorted expires_le (expiry bl) /\
  Forall (fun e => Expires e <= now + ttl bl) (expiry bl) /\
  Forall (fun e => bIP e = k -> Expires e = X) (expiry bl) /\
  (data bl !! k <> None -> exists e, e ∈ expiry bl /\ bIP e = k) /\
  (now <= X -> data bl !! k <> None).

(** The calls of [Set] for [k] come no later than [X]. *)
Definition set_by `{NetLib} (k : string) (X : Z) (e : Z * Trace.event) : Prop :=
  match snd e with
  | Trace.EvSet ip => key ip = k -> fst e <= X
  | Trace.EvExpire => True
  end.

End BlacklistInv.

(** ** Runs of the second engine *)

Module IPHistoryRuns.
Import IPHistory.

Section WithNet.
Context `{NetLib}.

(** The requests [process] takes from the channel, oldest first. *)
Definition process_requests (reqs : list Request) (h : t) : t :=
  fold_left (fun h req => process req h) reqs h.

Definition same_class (c1 c2 : Classification) : bool :=
  match c1, c2 with
  | Application, Application | Asset, Asset => true
  | _, _ => false
  end.

(** How many of the requests come from the address with key [k] and
    are classified [c]. *)
Definition requests_of (k : string) (c : Classification)
    (reqs : list Request) : Z :=
  Z.of_nat (length (List.filter
    (fun req => String.eqb (Blacklist.key (ReqIP req)) k &&
                same_class (classify (URL req)) c) reqs)).

(** The key [k] has a list in [d] whose totals at the cutoff meet the
    block condition. *)
Definition qualifies_in (o : IPHistoryOptions) (cutoff : Z)
    (d : gmap string (list IPHistoryItem)) (k : string) : bool :=
  match d !! k with
  | None => false
  | Some counts =>
      let '(total, app) := totals cutoff counts in
      block_condition (MaxRequests o) (MaxRatio o) total app
  end.

Definition qualifies (now : Z) (h : t) (k : string) : bool :=
  qualifies_in (options h) (now + (-1) * Window (options h)) (data h) k.

(** What the loop [INNER] and the test of the length leave of a
    list. *)
Definition trimmed (cutoff : Z) (counts : list IPHistoryItem)
  : option (list IPHistoryItem) :=
  let counts' := expire_old cutoff counts in
  if (Z.of_nat (length counts') <=? 0)%Z then None else Some counts'.

(** The calls of [Set] for the keys [ks], in that order. *)
Definition Set_all (set_at : string -> Z) (ks : list string)
    (bl : Blacklist.t) : Blacklist.t :=
  fold_left (fun bl k => Blacklist.Set_ (set_at k) (ParseIP k) bl) ks bl.

End WithNet.

(** Buckets are kept newest first. *)
Definition newest_first (counts : list IPHistoryItem) : Prop :=
  StronglySorted (fun a b => Timestamp b < Timestamp a) counts.

End IPHistoryRuns.

(** A history with a window of 60 and a sweep every 10, holding one bucket
    of the slot 95. *)
Definition sweep_options : IPHistory.IPHistoryOptions :=
  {| IPHistory.TimeSlot := 5; IPHistory.Window := 60; IPHistory.Interval := 5;
     IPHistory.ExpireInterval := 10; IPHistory.BlacklistTTL := 50;
     IPHistory.MaxRequests := 30; IPHistory.MaxRatio := F64.default_max_ratio |}.

Definition bucket_95 : IPHistoryItem :=
  {| Timestamp := 95; Count := 3; App := 2; Other := 1 |}.

Definition sweep_history : IPHistory.t :=
  {| IPHistory.options := sweep_options;
     IPHistory.data := {[ "203.0.113.5" := [bucket_95] ]};
     IPHistory.blacklist := Blacklist.NewBlacklist 50 10;
     IPHistory.currentSlot := 150;
     IPHistory.updatedIPs := ∅ |}.

(** The second engine after the requests of the scenario, and after ten
    page requests and fifty asset requests from 203.0.113.9. *)
Definition quiet_requests : list Request :=
  repeat {| URL := "/index.html"; ReqIP := ParseIP "203.0.113.9" |} 10 ++
  repeat {| URL := "/logo.png"; ReqIP := ParseIP "203.0.113.9" |} 50.

Definition decision_history : IPHistory.t :=
  IPHistoryRuns.process_requests (scenario_requests ++ quiet_requests)
    (IPHistory.NewIPHistory sweep_options 0).

Definition bucket_42 : IPHistoryItem :=
  {| Timestamp := 0; Count := 42; App := 40; Other := 2 |}.

(** The sweeps of the test in the repository: a time to live of 50 and a
    sweep every 10. *)
Definition sweeps_every_10 : list (Z * Trace.event) :=
  [(10, Trace.EvExpire); (20, Trace.EvExpire); (30, Trace.EvExpire);
   (40, Trace.EvExpire); (50, Trace.EvExpire); (60, Trace.EvExpire);
   (70, Trace.EvExpire)].

(** A loop with a sweep every 10 whose second and third timers fire one
    tick late: the sweeps run at 10, 21 and 32. *)
Definition sweeps_late : list (Z * Trace.event) :=
  [(10, Trace.EvExpire); (21, Trace.EvExpire); (32, Trace.EvExpire)].

(** ** Closed forms for binary64

    The functions of [SpecFloat] on the operands the program meets, in
    terms of integer arithmetic.  They are what the proofs about the ratio
    compare the executable definitions with. *)

Module Binary64.

Definition round_shift (K n : Z) : Z :=
  let q := n / 2 ^ K in
  let rho := n mod 2 ^ K in
  let half := 2 ^ (K - 1) in
  if (half <? rho) || ((half =? rho) && Z.odd q) then q + 1 else q.

(** The second half of [binary_round_aux]: the rounded mantissa is
    brought back to 53 digits. *)
Definition finish (m1 e : Z) : spec_float :=
  let '(mrs, e') := shr_fexp 53 1024 m1 e loc_Exact in
  match shr_m mrs with
  | Z0 => S754_zero false
  | Zpos m => if e' <=? 1024 - 53 then S754_finite false m e' else S754_infinity false
  | Zneg _ => S754_nan
  end.

(** Mantissa and exponent after [finish]. *)
Definition renorm (m1 e : Z) : Z * Z :=
  if m1 <? 2 ^ 53 then (m1, e) else (2 ^ 52, e + 1).

Definition finite_of (me : Z * Z) : spec_float :=
  S754_finite false (Z.to_pos (fst me)) (snd me).

(** The double nearest to a positive integer below [2^64]: mantissa and
    exponent. *)
Definition conv (n : Z) : Z * Z :=
  let d := Z.log2 n + 1 in
  if d <=? 53 then (n * 2 ^ (53 - d), d - 53)
  else renorm (round_shift (d - 53) n) (d - 53).

(** The order of positive normal doubles, on mantissa and exponent. *)
Definition lex_le (x y : Z * Z) : Prop :=
  snd x < snd y \/ (snd x = snd y /\ fst x <= fst y).

(** One bucket counts what it says: the total is the sum of the two
    classes. *)
Definition bucket_ok (it : IPHistoryItem) : Prop :=
  0 <= App it /\ 0 <= Other it /\ Count it = App it + Other it.

Definition sum_Count (counts : list IPHistoryItem) : Z :=
  fold_right (fun it s => Count it + s) 0 counts.

Definition sum_App (counts : list IPHistoryItem) : Z :=
  fold_right (fun it s => App it + s) 0 counts.

End Binary64.

(** ** The remaining functions of the package *)

Module Private.

Section WithNet.
Context `{NetLib}.

(** [Network]: the first private network that contains the address,
    [nil] when there is none. *)
Fixpoint Network (nets : list IPNet) (ip : IP) : option IPNet :=
  match nets with
  | [] => None
  | n :: more => if Contains n ip then Some n else Network more ip
  end.

End WithNet.

End Private.

Module Counters.

(** [NumIPs]: [len(h.data)] *)
Definition NumIPs (h : IPHistory.t) : nat := size (IPHistory.data h).

(** [Size]: the lengths of all lists, added up. *)
Definition Size (h : IPHistory.t) : nat :=
  map_fold (fun _ l c => (c + length l)%nat) 0%nat (IPHistory.data h).

(** [NumBL] *)
Definition NumBL (h : IPHistory.t) : nat := Blacklist.Size (IPHistory.blacklist h).

End Counters.

(** ** Runs of the two engines

    The goroutines of an engine take turns under its mutex; a run lists
    the turns in the order in which they got it. *)

Module HistoryRuns.

Inductive op `{NetLib} : Type :=
| Process (req : Request)
| SetTimestamp (slot : Z)
| Calculate (now : Z).

Section WithNet.
Context `{NetLib}.

Definition step (o : op) (h : History.t) : outcome History.t :=
  match o with
  | Process req => History.process req h
  | SetTimestamp slot => Done (History.setTimestamp slot h)
  | Calculate now => History.calculate now h
  end.

Fixpoint run (ops : list op) (h : History.t) : outcome History.t :=
  match ops with
  | [] => Done h
  | o :: more =>
      match step o h with
      | Done h' => run more h'
      | Panic msg => Panic msg
      end
  end.

End WithNet.

End HistoryRuns.

Module IPHistoryOps.

Inductive op `{NetLib} : Type :=
| Process (req : Request)
| SetTimestamp (slot : Z)
| Calculate (now : Z) (set_at : string -> Z)
| Expire (started fired : Z).

Section WithNet.
Context `{NetLib}.

Definition step (o : op) (h : IPHistory.t) : IPHistory.t :=
  match o with
  | Process req => IPHistory.process req h
  | SetTimestamp slot => IPHistory.setTimestamp slot h
  | Calculate now set_at => IPHistory.calculate now set_at h
  | Expire started fired => IPHistory.expire started fired h
  end.

Definition run (ops : list op) (h : IPHistory.t) : IPHistory.t :=
  fold_left (fun h o => step o h) ops h.

(** The slot clock never goes back: every [SetTimestamp] installs a slot
    that is not before the one in place. *)
Fixpoint slots_forward (slot : Z) (ops : list op) : bool :=
  match ops with
  | [] => true
  | SetTimestamp slot' :: more => (slot <=? slot') && slots_forward slot' more
  | _ :: more => slots_forward slot more
  end.

End WithNet.

(** A list is newest first and holds no slot after [slot]. *)
Definition slots_ok (slot : Z) (counts : list IPHistoryItem) : Prop :=
  IPHistoryRuns.newest_first counts /\
  Forall (fun it => Timestamp it <= slot) counts.

(** The counters of a bucket agree in [uint64] arithmetic. *)
Definition counters_agree (it : IPHistoryItem) : Prop :=
  U64.in_range (Count it) /\ U64.in_range (App it) /\ U64.in_range (Other it) /\
  Count it = U64.wrap (App it + Other it).

End IPHistoryOps.

(** How often the separator occurs in a string. *)
Fixpoint occurrences (sep : ascii) (s : string) : nat :=
  match s with
  | EmptyString => 0
  | String c s' => (if Ascii.eqb c sep then 1 else 0) + occurrences sep s'
  end.

(** [strings.Join(fields, sep)] for a separator of one byte. *)
Fixpoint Join (sep : ascii) (fields : list string) : string :=
  match fields with
  | [] => EmptyString
  | [f] => f
  | f :: more => f +:+ String sep (Join sep more)
  end.


(** A short run of the second engine: two requests of one address in the
    slots 0 and 60, one request of another address. *)
Definition page_request (ip : string) : Request :=
  {| URL := "/index.html"; ReqIP := ParseIP ip |}.

Definition two_slots : list IPHistoryOps.op :=
  [IPHistoryOps.Process (page_request "203.0.113.5");
   IPHistoryOps.SetTimestamp 60;
   IPHistoryOps.Process (page_request "203.0.113.5");
   IPHistoryOps.Process (page_request "203.0.113.9")].

Definition bucket_of (slot : Z) : IPHistoryItem :=
  {| Timestamp := slot; Count := 1; App := 1; Other := 0 |}.


(** * Properties *)

(** ** Strings *)

Lemma sapp_nil_l (s : string) : "" +:+ s = s.
Proof. reflexivity. Qed.

Lemma sapp_cons (c : ascii) (s t : string) :
  String c s +:+ t = String c (s +:+ t).
Proof. reflexivity. Qed.

Lemma sapp_nil_r (s : string) : s +:+ "" = s.
Proof. induction s as [|c s IH]; [reflexivity|]. rewrite sapp_cons, IH. reflexivity. Qed.

Lemma sapp_assoc (s t u : string) : (s +:+ t) +:+ u = s +:+ (t +:+ u).
Proof.
  induction s as [|c s IH]; [reflexivity|].
  rewrite !sapp_cons, IH. reflexivity.
Qed.

(** ** The asset classifier *)

Section RegexpFacts.
Import Regexp.

Lemma prefix_matches_denotes (r : regex) :
  forall s rest, In rest (prefix_matches r s) ->
    exists w, denotes r w /\ s = w +:+ rest.
Proof.
  induction r as [|c|r1 IH1 r2 IH2|r1 IH1 r2 IH2]; intros s rest Hin; simpl in Hin.
  - destruct Hin as [<-|[]]. exists "". split; [constructor|reflexivity].
  - destruct s as [|c' s']; [destruct Hin|].
    destruct (Ascii.eqb_spec c c') as [<-|Hne]; [|destruct Hin].
    destruct Hin as [<-|[]]. exists (String c ""). split; [constructor|reflexivity].
  - apply in_flat_map in Hin as (mid & Hmid & Hrest).
    destruct (IH1 _ _ Hmid) as (w1 & Hw1 & ->).
    destruct (IH2 _ _ Hrest) as (w2 & Hw2 & ->).
    exists (w1 +:+ w2). split; [by constructor|]. by rewrite sapp_assoc.
  - apply in_app_or in Hin as [Hin|Hin].
    + destruct (IH1 _ _ Hin) as (w & Hw & ->). exists w. split; [by apply den_alt_l|done].
    + destruct (IH2 _ _ Hin) as (w & Hw & ->). exists w. split; [by apply den_alt_r|done].
Qed.

Lemma denotes_prefix_matches (r : regex) (w : string) :
  denotes r w -> forall rest, In rest (prefix_matches r (w +:+ rest)).
Proof.
  induction 1 as [|c|r1 r2 w1 w2 _ IH1 _ IH2|r1 r2 w _ IH|r1 r2 w _ IH];
    intros rest; simpl.
  - by left.
  - rewrite sapp_nil_l, Ascii.eqb_refl. by left.
  - apply in_flat_map. exists (w2 +:+ rest). split.
    + rewrite sapp_assoc. apply IH1.
    + apply IH2.
  - apply in_or_app. left. apply IH.
  - apply in_or_app. right. apply IH.
Qed.

Lemma matches_here_iff (r : regex) (s : string) :
  matches_here r s = true <-> exists w rest, denotes r w /\ s = w +:+ rest.
Proof.
  unfold matches_here. split.
  - destruct (prefix_matches r s) as [|rest l] eqn:E; [discriminate|]. intros _.
    destruct (prefix_matches_denotes r s rest) as (w & Hw & ->).
    { rewrite E. by left. }
    by exists w, rest.
  - intros (w & rest & Hw & ->).
    pose proof (denotes_prefix_matches r w Hw rest) as Hin.
    destruct (prefix_matches r (w +:+ rest)); [destruct Hin|reflexivity].
Qed.

Lemma MatchString_iff (r : regex) (s : string) :
  MatchString r s = true <->
  exists pre w post, denotes r w /\ s = pre +:+ w +:+ post.
Proof.
  induction s as [|c s IH]; simpl; rewrite orb_true_iff, matches_here_iff.
  - split.
    + intros [(w & rest & Hw & E)|?]; [|discriminate].
      exists "", w, rest. by rewrite sapp_nil_l.
    + intros (pre & w & post & Hw & E). left.
      destruct pre as [|? ?]; [|discriminate]. by exists w, post.
  - rewrite IH. split.
    + intros [(w & rest & Hw & E)|(pre & w & post & Hw & ->)].
      * exists "", w, rest. by rewrite sapp_nil_l.
      * exists (String c pre), w, post. by rewrite sapp_cons.
    + intros (pre & w & post & Hw & E).
      destruct pre as [|c' pre].
      * left. exists w, post. by rewrite sapp_nil_l in E.
      * right. rewrite sapp_cons in E. injection E as -> ->.
        by exists pre, w, post.
Qed.

Lemma denotes_lit (p w : string) : denotes (lit p) w <-> w = p.
Proof.
  revert w. induction p as [|c p IH]; intros w; simpl.
  - split; [by inversion 1|intros ->; constructor].
  - split.
    + inversion 1 as [| |r1 r2 w1 w2 H1 H2| |]; subst.
      inversion H1; subst. apply IH in H2 as ->. reflexivity.
    + intros ->. change (String c p) with (String c "" +:+ p).
      constructor; [constructor|by apply IH].
Qed.

Lemma denotes_alt_inv (r1 r2 : regex) (w : string) :
  denotes (Alt r1 r2) w -> denotes r1 w \/ denotes r2 w.
Proof. inversion 1; subst; auto. Qed.

Lemma denotes_cat_chr_inv (c : ascii) (r : regex) (w : string) :
  denotes (Cat (Chr c) r) w -> exists x, w = String c x /\ denotes r x.
Proof.
  inversion 1 as [| |r1 r2 w1 w2 H1 H2| |]; subst.
  inversion H1; subst. exists w2. split; [reflexivity|exact H2].
Qed.

Lemma denotes_assetRegexp (w : string) :
  denotes assetRegexp w <-> In w asset_patterns.
Proof.
  unfold assetRegexp, asset_patterns. split.
  - intros H. apply denotes_cat_chr_inv in H as (x & -> & H).
    repeat (apply denotes_alt_inv in H as [H|H];
            [apply denotes_lit in H as ->; simpl; auto 10|]).
    apply denotes_lit in H as ->; simpl; auto 10.
  - intros Hin. simpl in Hin.
    assert (forall x, denotes (Alt (lit "jpg") (Alt (lit "png") (Alt (lit "css")
              (Alt (lit "js") (Alt (lit "gif") (lit "ico")))))) x ->
            denotes (Cat (Chr ".") (Alt (lit "jpg") (Alt (lit "png") (Alt (lit "css")
              (Alt (lit "js") (Alt (lit "gif") (lit "ico"))))))) (String "." x)) as Hcat.
    { intros x Hx. change (String "." x) with (String "." "" +:+ x).
      constructor; [constructor|exact Hx]. }
    destruct Hin as [<-|[<-|[<-|[<-|[<-|[<-|[]]]]]]]; apply Hcat.
    + apply den_alt_l. by apply denotes_lit.
    + apply den_alt_r, den_alt_l. by apply denotes_lit.
    + do 2 apply den_alt_r. apply den_alt_l. by apply denotes_lit.
    + do 3 apply den_alt_r. apply den_alt_l. by apply denotes_lit.
    + do 4 apply den_alt_r. apply den_alt_l. by apply denotes_lit.
    + do 5 apply den_alt_r. by apply denotes_lit.
Qed.

Lemma MatchString_assetRegexp (url : string) :
  MatchString assetRegexp url = true <->
  exists p, In p asset_patterns /\ occurs_in p url.
Proof.
  rewrite MatchString_iff. unfold occurs_in. split.
  - intros (pre & w & post & Hw & ->). exists w. split; [by apply denotes_assetRegexp|].
    by exists pre, post.
  - intros (p & Hp & pre & post & ->). exists pre, p, post.
    split; [by apply denotes_assetRegexp|done].
Qed.

End RegexpFacts.

(** C9. The classifier returns a value for every string; the value is
    [Asset] exactly when one of [.jpg], [.png], [.css], [.js], [.gif],
    [.ico] occurs somewhere in the string, with the case as written, and
    [Application] in every other case. *)
Theorem classify_asset_iff_pattern_occurs (url : string) :
  (classify url = Asset <->
     exists p, In p asset_patterns /\ Regexp.occurs_in p url) /\
  (classify url = Application <->
     ~ exists p, In p asset_patterns /\ Regexp.occurs_in p url) /\
  (classify url = Asset \/ classify url = Application).
Proof.
  pose proof (MatchString_assetRegexp url) as Hm. unfold classify.
  destruct (Regexp.MatchString assetRegexp url).
  - split; [|split].
    + split; [intros _; by apply Hm|done].
    + split; [discriminate|]. intros Hn. exfalso. apply Hn. by apply Hm.
    + by left.
  - split; [|split].
    + split; [discriminate|]. intros Hp. apply Hm in Hp. discriminate.
    + split; [|done]. intros _ Hp. apply Hm in Hp. discriminate.
    + by right.
Qed.

Example classify_css_inside : classify "/static/site.css?v=3" = Asset.
Proof. reflexivity. Qed.

Example classify_upper_case : classify "/LOGO.PNG" = Application.
Proof. reflexivity. Qed.

Example classify_empty : classify "" = Application.
Proof. reflexivity. Qed.

(** ** The command line front end *)

Section MainFacts.
Context `{NetLib}.
Import Main.

Lemma decide_ips_cases (history : History.t) (ips : list string) :
  decide_ips history ips = ok \/ decide_ips history ips = block.
Proof.
  induction ips as [|ip more IH]; simpl; [by left|].
  destruct (History.IsBlacklisted history ip); [by right|exact IH].
Qed.

Lemma decide_ips_block (history : History.t) (ips : list string) :
  decide_ips history ips = block <->
  exists ip, In ip ips /\ History.IsBlacklisted history ip = true.
Proof.
  induction ips as [|ip more IH]; simpl.
  - split; [discriminate|]. by intros (? & [] & _).
  - destruct (History.IsBlacklisted history ip) eqn:E.
    + split; [|done]. intros _. exists ip. by split; [left|].
    + rewrite IH. split.
      * intros (x & Hx & Hb). exists x. by split; [right|].
      * intros (x & [<-|Hx] & Hb); [congruence|]. by exists x.
Qed.

Lemma keep_In (privIP : list IPNet) (s ip : string) :
  In ip (keep privIP s) <->
  is_nil (parseIP s) = false /\ IsPrivate privIP (parseIP s) = false /\
  ip = IP_String (parseIP s).
Proof.
  unfold keep.
  destruct (is_nil (parseIP s)), (IsPrivate privIP (parseIP s)); simpl;
    split; try tauto; try (by intros (? & ? & ?)).
  - intros [<-|[]]. done.
  - intros (_ & _ & ->). by left.
Qed.

Lemma candidates_In (privIP : list IPNet) (remote xff ip : string) :
  In ip (candidates privIP remote xff) <->
  exists s, (s = remote \/ exists x, In x (Split "," xff) /\ s = TrimSpace x) /\
    is_nil (parseIP s) = false /\ IsPrivate privIP (parseIP s) = false /\
    ip = IP_String (parseIP s).
Proof.
  unfold candidates. rewrite in_app_iff, in_flat_map. split.
  - intros [Hr|(x & Hx & Hk)].
    + apply keep_In in Hr. exists remote. split; [by left|exact Hr].
    + apply keep_In in Hk. exists (TrimSpace x). split; [right; by exists x|exact Hk].
  - intros (s & [->|(x & Hx & ->)] & Hk).
    + left. by apply keep_In.
    + right. exists x. split; [exact Hx|]. by apply keep_In.
Qed.

Lemma main_line_sent (privIP : list IPNet) (history : History.t) (line : string) :
  sent (main_line privIP history line) = [].
Proof. unfold main_line. by destruct (_ <? 2). Qed.

Lemma main_line_after (privIP : list IPNet) (history : History.t) (line : string) :
  after (main_line privIP history line) = history.
Proof. unfold main_line. by destruct (_ <? 2). Qed.

(** C2. Every line is answered by one line, [OK] or [BLOCK].  The answer
    is [BLOCK] exactly when the line has two fields or more and the
    remote address or an entry of the forwarded-for list parses, is not
    private and is in the blacklist.  A line with fewer than two fields
    is answered [OK], and no line changes the history. *)
Theorem main_line_verdict (history : History.t) (line : string) :
  let fields := Split "|" line in
  let t := main_line NewIP history line in
  (written t = [ok] \/ written t = [block]) /\
  (written t = [block] <->
     (2 <= length fields)%nat /\
     exists s,
       (s = nth 0 fields "" \/
        exists x, In x (Split "," (nth 1 fields "")) /\ s = TrimSpace x) /\
       is_nil (parseIP s) = false /\
       IsPrivate NewIP (parseIP s) = false /\
       History.IsBlacklisted history (IP_String (parseIP s)) = true) /\
  ((length fields < 2)%nat -> written t = [ok]) /\
  after t = history.
Proof.
  intros fields t. subst t. unfold main_line. fold fields.
  destruct (Z.ltb_spec (Z.of_nat (length fields)) 2) as [Hlt|Hge]; simpl.
  - split; [by left|]. split; [|split; [done|done]].
    split; [discriminate|]. intros [Hge _]. lia.
  - split; [|split; [|split; [intros ?; lia|done]]].
    + destruct (decide_ips_cases history
                  (candidates NewIP (nth 0 fields "") (nth 1 fields ""))) as [->| ->];
        [by left|by right].
    + split.
      * intros [= Hb]. split; [lia|].
        apply decide_ips_block in Hb as (ip & Hin & Hbl).
        apply candidates_In in Hin as (s & Hs & Hn & Hp & ->).
        by exists s.
      * intros (_ & s & Hs & Hn & Hp & Hbl). f_equal.
        apply decide_ips_block. exists (IP_String (parseIP s)).
        split; [|exact Hbl]. apply candidates_In. by exists s.
Qed.

End MainFacts.

(** C1. On a line with a public address in it the front end finds a
    candidate and answers, and sends nothing to the request channel: the
    history is left as it was, without a bucket for the address. *)
Theorem main_line_ingests_nothing :
  let history := History.NewHistory default_options 0 in
  let fields := Split "|" scenario_line in
  let t := Main.main_line Main.NewIP history scenario_line in
  Main.candidates Main.NewIP (nth 0 fields "") (nth 1 fields "") = ["8.8.8.8"] /\
  Main.written t = ["OK"] /\
  Main.sent t = [] /\
  History.data (Main.after t) !! "8.8.8.8" = None.
Proof. cbv zeta. repeat split; vm_compute; reflexivity. Qed.

Example malformed_line_passes :
  Main.written (Main.main_line Main.NewIP (History.NewHistory default_options 0)
                  "justastring") = ["OK"].
Proof. reflexivity. Qed.

(** ** The decision run of [History] *)

Section HistoryFacts.
Import History.

Lemma calculate_ip_nil (o : HistoryOptions) (cutoff : Z) (ip : string)
    (counts : list HistoryItem) (d : gmap string (list HistoryItem)) :
  (exists d', calculate_ip o cutoff ip counts (d, nil_map) = Done (d', nil_map) /\
     let '(total, app) := count_requests (expire_old cutoff counts) in
     block_condition (MaxRequests o) (MaxRatio o) total app = false) \/
  (calculate_ip o cutoff ip counts (d, nil_map) =
     Panic "assignment to entry in nil map" /\
     let '(total, app) := count_requests (expire_old cutoff counts) in
     block_condition (MaxRequests o) (MaxRatio o) total app = true).
Proof.
  unfold calculate_ip.
  destruct (count_requests (expire_old cutoff counts)) as [total app].
  destruct (block_condition (MaxRequests o) (MaxRatio o) total app); simpl.
  - right. done.
  - left. eexists. done.
Qed.

(** A run that starts from [new(Blacklist)] either panics or ends with
    the [nil] map: no order of the entries lets it block an address. *)
Lemma calculate_range_nil (o : HistoryOptions) (cutoff : Z)
    (entries : list (string * list HistoryItem)) :
  forall d, match calculate_range o cutoff entries (d, nil_map) with
            | Done (_, bl) => bl = nil_map
            | Panic _ => True
            end.
Proof.
  induction entries as [|[ip counts] more IH]; intros d; cbn [calculate_range]; [done|].
  destruct (calculate_ip_nil o cutoff ip counts d) as [(d' & -> & _)|[-> _]];
    [apply IH|done].
Qed.

Lemma calculate_never_blocks (now : Z)
    (entries : list (string * list HistoryItem)) (h h' : t) (ip : string) :
  calculate_in_order now entries h = Done h' -> IsBlacklisted h' ip = false.
Proof.
  unfold calculate_in_order, new_Blacklist.
  pose proof (calculate_range_nil (options h) (now + -1 * Window (options h))
                entries (data h)) as Hnil.
  destruct (calculate_range _ _ _ _) as [[d bl]|msg]; [|discriminate].
  intros [= <-]. subst bl. reflexivity.
Qed.

Lemma calculate_range_panics (o : HistoryOptions) (cutoff : Z)
    (entries : list (string * list HistoryItem)) (ip : string)
    (counts : list HistoryItem) :
  In (ip, counts) entries ->
  (let '(total, app) := count_requests (expire_old cutoff counts) in
   block_condition (MaxRequests o) (MaxRatio o) total app = true) ->
  forall d, calculate_range o cutoff entries (d, nil_map) =
            Panic "assignment to entry in nil map".
Proof.
  intros Hin Hcond. induction entries as [|[ip' counts'] more IH]; [destruct Hin|].
  intros d. cbn [calculate_range].
  destruct (calculate_ip_nil o cutoff ip' counts' d) as [(d' & -> & Hc)|[-> _]];
    [|done].
  destruct Hin as [[= -> ->]|Hin].
  - destruct (count_requests (expire_old cutoff counts)) as [total app]. congruence.
  - by apply IH.
Qed.

End HistoryFacts.

Lemma scenario_history_reached :
  process_all scenario_requests (History.NewHistory default_options 0) =
  Done scenario_history.
Proof. vm_compute. reflexivity. Qed.

(** C10. After the forty page requests and two asset requests of the
    spec's scenario, the address meets the block condition, and the run
    of [calculate] panics on the assignment to the fresh blacklist instead
    of installing a blacklist that contains the address. *)
Theorem History_calculate_panics :
  count_requests (expire_old (5 - 3600)
      [{| Timestamp := 0; Count := 42; App := 40; Other := 2 |}]) = (42, 40) /\
  block_condition 30 F64.default_max_ratio 42 40 = true /\
  History.calculate 5 scenario_history = Panic "assignment to entry in nil map".
Proof. vm_compute. auto. Qed.

(** ** The blacklist with a time to live *)

Section BlacklistFacts.
Context `{NetLib}.
Import Blacklist Trace BlacklistInv.

Lemma sorted_snoc (l : list blacklistIP) (a : blacklistIP) :
  StronglySorted expires_le l -> Forall (fun e => expires_le e a) l ->
  StronglySorted expires_le (l ++ [a]).
Proof.
  induction 1 as [|x l Hs IH Hx]; intros Ha; simpl.
  - repeat constructor.
  - apply Forall_cons in Ha as [Hxa Ha]. constructor; [by apply IH|].
    apply Forall_app. split; [exact Hx|by constructor].
Qed.

Lemma sorted_suffix (gone l : list blacklistIP) :
  StronglySorted expires_le (gone ++ l) -> StronglySorted expires_le l.
Proof.
  induction gone as [|x gone IH]; simpl; [done|].
  intros Hs. apply StronglySorted_inv in Hs as [Hs _]. by apply IH.
Qed.

(** What the loop of [expire] removes and what it leaves. *)
Lemma expire_loop_spec (now : Z) (ex : list blacklistIP) :
  forall d, exists gone,
    ex = gone ++ snd (expire_loop now d ex) /\
    Forall (fun e => Expires e < now) gone /\
    match snd (expire_loop now d ex) with
    | [] => True
    | e :: _ => now <= Expires e
    end /\
    (forall k, (exists e, e ∈ gone /\ bIP e = k) ->
               fst (expire_loop now d ex) !! k = None) /\
    (forall k, (forall e, e ∈ gone -> bIP e <> k) ->
               fst (expire_loop now d ex) !! k = d !! k).
Proof.
  induction ex as [|blip rest IH]; intros d; simpl.
  - exists []. repeat split; try done. intros k (e & He & _). by apply elem_of_nil in He.
  - unfold Before. destruct (Z.ltb_spec (Expires blip) now) as [Hlt|Hge].
    + destruct (IH (delete (bIP blip) d)) as (gone & Heq & Hgone & Hhd & Hdel & Hkeep).
      exists (blip :: gone). split; [simpl; by f_equal|].
      split; [by constructor|]. split; [exact Hhd|]. split.
      * intros k (e & He & Hk).
        destruct (decide (k ∈ (bIP <$> gone))) as [Hin|Hout].
        -- apply Hdel. apply list_elem_of_fmap in Hin as (e' & -> & He'). by exists e'.
        -- rewrite Hkeep.
           ++ apply elem_of_cons in He as [->|He]; [subst k; apply lookup_delete_eq|].
              exfalso. apply Hout. apply list_elem_of_fmap. by exists e.
           ++ intros e' He' Hk'. apply Hout. apply list_elem_of_fmap. by exists e'.
      * intros k Hk. rewrite Hkeep.
        -- apply lookup_delete_ne. apply Hk. by left.
        -- intros e He. apply Hk. by right.
    + exists []. simpl. repeat split; try done.
      intros k (e & He & _). by apply elem_of_nil in He.
Qed.

Lemma data_expire (now : Z) (bl : t) :
  data (expire now bl) = fst (expire_loop now (data bl) (expiry bl)).
Proof. unfold expire. by destruct (expire_loop _ _ _). Qed.

Lemma expiry_expire (now : Z) (bl : t) :
  expiry (expire now bl) = snd (expire_loop now (data bl) (expiry bl)).
Proof. unfold expire. by destruct (expire_loop _ _ _). Qed.

Lemma ttl_expire (now : Z) (bl : t) : ttl (expire now bl) = ttl bl.
Proof. unfold expire. by destruct (expire_loop _ _ _). Qed.

Lemma ttl_Set (now : Z) (ip : IP) (bl : t) : ttl (Set_ now ip bl) = ttl bl.
Proof. unfold Set_. by destruct (data bl !! key ip). Qed.

Lemma ttl_step (now : Z) (ev : event) (bl : t) : ttl (step now ev bl) = ttl bl.
Proof. destruct ev; [apply ttl_Set|apply ttl_expire]. Qed.

Lemma ttl_run (tr : list (Z * event)) : forall bl, ttl (run tr bl) = ttl bl.
Proof.
  induction tr as [|[now ev] tr IH]; intros bl; simpl; [done|].
  by rewrite IH, ttl_step.
Qed.

Lemma IsBlacklisted_data (bl : t) (ip : IP) :
  IsBlacklisted bl ip = true <-> data bl !! key ip <> None.
Proof. unfold IsBlacklisted. by destruct (data bl !! key ip). Qed.

Lemma not_IsBlacklisted_data (bl : t) (ip : IP) :
  IsBlacklisted bl ip = false <-> data bl !! key ip = None.
Proof. unfold IsBlacklisted. by destruct (data bl !! key ip). Qed.

(** C6. [Set] on an address that is in the blacklist returns the
    blacklist as it was: same addresses, same expiry list, so the expiry
    instant of the first insertion stands and no entry is added. *)
Theorem Set_present_is_noop (now : Z) (ip : IP) (bl : t) :
  IsBlacklisted bl ip = true -> Set_ now ip bl = bl.
Proof.
  intros Hin. apply IsBlacklisted_data in Hin. unfold Set_.
  by destruct (data bl !! key ip).
Qed.

(** Two calls in a row: the second changes nothing, and the entry that
    the first call appended carries the first clock reading. *)
Lemma Set_twice (t1 t2 : Z) (ip : IP) (bl : t) :
  Set_ t2 ip (Set_ t1 ip bl) = Set_ t1 ip bl /\
  (IsBlacklisted bl ip = false ->
   expiry (Set_ t2 ip (Set_ t1 ip bl)) =
     expiry bl ++ [{| bIP := key ip; Expires := t1 + ttl bl |}]).
Proof.
  assert (Set_ t2 ip (Set_ t1 ip bl) = Set_ t1 ip bl) as Heq.
  { unfold Set_ at 1.
    assert (data (Set_ t1 ip bl) !! key ip <> None) as Hin.
    { unfold Set_. destruct (data bl !! key ip) eqn:E; simpl; [by rewrite E|].
      by rewrite lookup_insert_eq. }
    by destruct (data (Set_ t1 ip bl) !! key ip). }
  split; [exact Heq|]. rewrite Heq. intros Hout.
  apply not_IsBlacklisted_data in Hout. unfold Set_. by rewrite Hout.
Qed.

(** *** The invariant of reachable blacklists *)

Lemma reach_inv_mono (now now' : Z) (bl : t) :
  reach_inv now bl -> now <= now' -> reach_inv now' bl.
Proof.
  intros (Hs & Hb & Hd & Hn) Hle. repeat split; try done.
  eapply Forall_impl; [exact Hb|]. simpl. intros e ?. lia.
Qed.

Lemma reach_inv_new (now ttl0 ei : Z) : reach_inv now (NewBlacklist ttl0 ei).
Proof. repeat split; simpl; constructor. Qed.

Lemma reach_inv_fresh (now : Z) (bl : t) (k : string) :
  reach_inv now bl -> data bl !! k = None ->
  Forall (fun e => bIP e <> k) (expiry bl).
Proof.
  intros (_ & _ & Hd & _) Hk. eapply Forall_impl; [exact Hd|].
  simpl. intros e He Hek. subst k. done.
Qed.

Lemma reach_inv_step (now now' : Z) (ev : event) (bl : t) :
  reach_inv now bl -> now <= now' -> reach_inv now' (step now' ev bl).
Proof.
  intros Hinv Hle. destruct ev as [ip|]; simpl.
  - unfold Set_. destruct (data bl !! key ip) eqn:E; [by eapply reach_inv_mono|].
    pose proof (reach_inv_fresh _ _ _ Hinv E) as Hfresh.
    destruct Hinv as (Hs & Hb & Hd & Hn). repeat split; simpl.
    + apply sorted_snoc; [exact Hs|].
      eapply Forall_impl; [exact Hb|]. unfold expires_le. simpl. intros e ?. lia.
    + apply Forall_app. split.
      * eapply Forall_impl; [exact Hb|]. simpl. intros e ?. lia.
      * constructor; [simpl; lia|constructor].
    + apply Forall_app. split.
      * eapply Forall_impl; [exact Hd|]. simpl. intros e He.
        destruct (decide (key ip = bIP e)) as [->|Hne];
          [by rewrite lookup_insert_eq|by rewrite lookup_insert_ne].
      * constructor; [simpl; by rewrite lookup_insert_eq|constructor].
    + rewrite map_app. simpl. apply NoDup_app. split; [exact Hn|]. split.
      * intros k Hk Hk'. apply list_elem_of_singleton in Hk'. subst k.
        apply list_elem_of_In, in_map_iff in Hk as (e & Hke & He).
        apply list_elem_of_In in He.
        rewrite Forall_forall in Hfresh. by apply (Hfresh e).
      * apply NoDup_singleton.
  - destruct Hinv as (Hs & Hb & Hd & Hn).
    destruct (expire_loop_spec now' (expiry bl) (data bl))
      as (gone & Heq & Hgone & _ & _ & Hkeep).
    unfold reach_inv. rewrite ttl_expire, data_expire, expiry_expire.
    set (left_ := snd (expire_loop now' (data bl) (expiry bl))) in *.
    rewrite Heq in Hs, Hb, Hd, Hn. repeat split.
    + by eapply sorted_suffix.
    + apply Forall_app in Hb as [_ Hb].
      eapply Forall_impl; [exact Hb|]. simpl. intros e ?. lia.
    + apply Forall_app in Hd as [_ Hd]. rewrite map_app in Hn.
      apply NoDup_app in Hn as (_ & Hdisj & _).
      rewrite Forall_forall in Hd |- *. intros e He.
      rewrite Hkeep; [by apply Hd|].
      intros e' He' Hk. apply (Hdisj (bIP e)).
      * apply list_elem_of_In, in_map_iff. exists e'. by rewrite <- list_elem_of_In.
      * apply list_elem_of_In, in_map. by apply list_elem_of_In.
    + rewrite map_app in Hn. by apply NoDup_app in Hn as (_ & _ & Hn).
Qed.

Lemma chrono_ge (tr : list (Z * event)) :
  forall from, chrono from tr = true -> Forall (fun e => from <= fst e) tr.
Proof.
  induction tr as [|[now ev] tr IH]; intros from; simpl; [constructor|].
  intros [Hle Hc]%andb_true_iff. apply Z.leb_le in Hle.
  constructor; [exact Hle|]. eapply Forall_impl; [by apply IH|].
  simpl. intros e ?. lia.
Qed.

Lemma chrono_weaken (tr : list (Z * event)) (from from' : Z) :
  chrono from tr = true -> from' <= from -> chrono from' tr = true.
Proof.
  destruct tr as [|[now ev] tr]; simpl; [done|].
  intros [Hle Hc]%andb_true_iff Hf. apply Z.leb_le in Hle.
  apply andb_true_iff. split; [apply Z.leb_le; lia|exact Hc].
Qed.

Lemma chrono_app (l1 l2 : list (Z * event)) :
  forall from, chrono from (l1 ++ l2) = true ->
    chrono from l1 = true /\
    forall t ev more, l2 = (t, ev) :: more ->
      Forall (fun e => fst e <= t) l1 /\ from <= t /\ chrono t more = true.
Proof.
  induction l1 as [|[now ev] l1 IH]; intros from; simpl.
  - intros Hc. split; [done|]. intros t ev more ->. simpl in Hc.
    apply andb_true_iff in Hc as [Hle Hc]. apply Z.leb_le in Hle. by repeat split.
  - intros [Hle Hc]%andb_true_iff. apply Z.leb_le in Hle.
    destruct (IH _ Hc) as [Hc1 Hrest]. split; [apply andb_true_iff; split; [by apply Z.leb_le|done]|].
    intros t ev' more E. destruct (Hrest t ev' more E) as (Hall & Hnt & Hcm).
    repeat split; [constructor; [simpl; lia|exact Hall]|lia|exact Hcm].
Qed.

Lemma chrono_filter (f : Z * event -> bool) (tr : list (Z * event)) :
  forall from, chrono from tr = true -> chrono from (List.filter f tr) = true.
Proof.
  induction tr as [|[now ev] tr IH]; intros from; simpl; [done|].
  intros [Hle Hc]%andb_true_iff.
  destruct (f (now, ev)); simpl.
  - apply andb_true_iff. split; [exact Hle|by apply IH].
  - apply IH. eapply chrono_weaken; [exact Hc|by apply Z.leb_le].
Qed.

Lemma reach_inv_run (tr : list (Z * event)) :
  forall now bl T, reach_inv now bl -> chrono now tr = true ->
    Forall (fun e => fst e <= T) tr -> now <= T ->
    reach_inv T (run tr bl).
Proof.
  induction tr as [|[t ev] tr IH]; intros now bl T Hinv Hc Hall HT; simpl.
  - by eapply reach_inv_mono.
  - simpl in Hc. apply andb_true_iff in Hc as [Hle Hc]. apply Z.leb_le in Hle.
    apply Forall_cons in Hall as [Ht Hall]. simpl in Ht.
    eapply IH; [|exact Hc|exact Hall|exact Ht].
    by eapply reach_inv_step.
Qed.

(** *** One tracked address *)

Lemma track_mono (k : string) (X now now' : Z) (bl : t) :
  track k X now bl -> now <= now' -> track k X now' bl.
Proof.
  intros (Hs & Hb & Ht & He & Hd) Hle. repeat split; try done.
  - eapply Forall_impl; [exact Hb|]. simpl. intros e ?. lia.
  - intros ?. apply Hd. lia.
Qed.

Lemma sorted_head_least (e0 e : blacklistIP) (l : list blacklistIP) :
  StronglySorted expires_le (e0 :: l) -> e ∈ e0 :: l -> Expires e0 <= Expires e.
Proof.
  intros [_ Hall]%StronglySorted_inv [->|He]%elem_of_cons; [lia|].
  rewrite Forall_forall in Hall. by apply Hall.
Qed.

Lemma track_step (k : string) (X now now' : Z) (ev : event) (bl : t) :
  track k X now bl -> now <= now' ->
  (forall ip, ev = EvSet ip -> key ip = k -> now' <= X) ->
  track k X now' (step now' ev bl).
Proof.
  intros Htr Hle Hside. destruct ev as [ip|]; simpl.
  - unfold Set_. destruct (data bl !! key ip) eqn:E; [by eapply track_mono|].
    destruct Htr as (Hs & Hb & Ht & He & Hd).
    assert (key ip <> k) as Hne.
    { intros Hk. specialize (Hside ip eq_refl Hk). subst k.
      apply Hd; [lia|exact E]. }
    repeat split; simpl.
    + apply sorted_snoc; [exact Hs|].
      eapply Forall_impl; [exact Hb|]. unfold expires_le. simpl. intros e ?. lia.
    + apply Forall_app. split.
      * eapply Forall_impl; [exact Hb|]. simpl. intros e ?. lia.
      * constructor; [simpl; lia|constructor].
    + apply Forall_app. split; [exact Ht|]. constructor; [simpl; done|constructor].
    + rewrite lookup_insert_ne by done. intros Hk.
      destruct (He Hk) as (e & Hin & Hek). exists e. split; [|exact Hek].
      apply elem_of_app. by left.
    + rewrite lookup_insert_ne by done. intros ?. apply Hd. lia.
  - destruct Htr as (Hs & Hb & Ht & He & Hd).
    destruct (expire_loop_spec now' (expiry bl) (data bl))
      as (gone & Heq & Hgone & _ & Hdel & Hkeep).
    unfold track. rewrite ttl_expire, data_expire, expiry_expire.
    set (left_ := snd (expire_loop now' (data bl) (expiry bl))) in *.
    rewrite Heq in Hs, Hb, Ht.
    apply Forall_app in Hb as [_ Hb]. apply Forall_app in Ht as [Htg Htl].
    repeat split.
    + by eapply sorted_suffix.
    + eapply Forall_impl; [exact Hb|]. simpl. intros e ?. lia.
    + exact Htl.
    + intros Hk. destruct (decide (k ∈ (bIP <$> gone))) as [Hin|Hout].
      * exfalso. apply Hk, Hdel.
        apply list_elem_of_fmap in Hin as (e & -> & Hin). by exists e.
      * rewrite Hkeep in Hk.
        -- destruct (He Hk) as (e & Hin & Hek). exists e. split; [|exact Hek].
           rewrite Heq in Hin. apply elem_of_app in Hin as [Hin|Hin]; [|exact Hin].
           exfalso. apply Hout, list_elem_of_fmap. by exists e.
        -- intros e Hin Hek. apply Hout, list_elem_of_fmap. by exists e.
    + intros HX. rewrite Hkeep; [apply Hd; lia|].
      intros e Hin Hek. rewrite Forall_forall in Hgone, Htg.
      specialize (Hgone e Hin). specialize (Htg e Hin Hek). simpl in Hgone. lia.
Qed.

(** A sweep after the expiry instant takes the address out. *)
Lemma track_sweep (k : string) (X now s : Z) (bl : t) :
  track k X now bl -> X < s -> data (expire s bl) !! k = None.
Proof.
  intros (Hs & Hb & Ht & He & Hd) HX.
  destruct (expire_loop_spec s (expiry bl) (data bl))
    as (gone & Heq & Hgone & Hhd & Hdel & Hkeep).
  rewrite data_expire.
  destruct (decide (k ∈ (bIP <$> gone))) as [Hin|Hout].
  { apply Hdel. apply list_elem_of_fmap in Hin as (e & -> & Hin). by exists e. }
  rewrite Hkeep by (intros e Hin Hek; apply Hout, list_elem_of_fmap; by exists e).
  destruct (data bl !! k) eqn:E; [exfalso|done].
  destruct He as (e & Hin & Hek); [done|].
  rewrite Heq in Hin, Hs, Ht. apply elem_of_app in Hin as [Hin|Hin].
  { apply Hout, list_elem_of_fmap. by exists e. }
  apply sorted_suffix in Hs. apply Forall_app in Ht as [_ Ht].
  rewrite Forall_forall in Ht. specialize (Ht e Hin Hek).
  destruct (snd (expire_loop s (data bl) (expiry bl))) as [|e0 l] eqn:El.
  { by apply elem_of_nil in Hin. }
  pose proof (sorted_head_least e0 e l Hs Hin). lia.
Qed.

Lemma track_run (k : string) (X : Z) (tr : list (Z * event)) :
  forall now bl T, track k X now bl -> chrono now tr = true ->
    Forall (fun e => fst e <= T) tr -> now <= T ->
    Forall (set_by k X) tr ->
    track k X T (run tr bl).
Proof.
  induction tr as [|[t ev] tr IH]; intros now bl T Htr Hc Hall HT Hside; simpl.
  - by eapply track_mono.
  - simpl in Hc. apply andb_true_iff in Hc as [Hle Hc]. apply Z.leb_le in Hle.
    apply Forall_cons in Hall as [Ht Hall]. simpl in Ht.
    apply Forall_cons in Hside as [Hs1 Hside].
    eapply IH; [|exact Hc|exact Hall|exact Ht|exact Hside].
    eapply track_step; [exact Htr|exact Hle|].
    intros ip -> Hk. by apply Hs1.
Qed.

Lemma absent_step (k : string) (now : Z) (ev : event) (bl : t) :
  data bl !! k = None ->
  (forall ip, ev = EvSet ip -> key ip <> k) ->
  data (step now ev bl) !! k = None.
Proof.
  intros Hk Hside. destruct ev as [ip|]; simpl.
  - unfold Set_. destruct (data bl !! key ip); [exact Hk|]. simpl.
    rewrite lookup_insert_ne; [exact Hk|]. by apply Hside.
  - destruct (expire_loop_spec now (expiry bl) (data bl))
      as (gone & _ & _ & _ & Hdel & Hkeep).
    rewrite data_expire.
    destruct (decide (k ∈ (bIP <$> gone))) as [Hin|Hout].
    + apply Hdel. apply list_elem_of_fmap in Hin as (e & -> & Hin). by exists e.
    + rewrite Hkeep; [exact Hk|].
      intros e Hin Hek. apply Hout, list_elem_of_fmap. by exists e.
Qed.

Lemma absent_run (k : string) (tr : list (Z * event)) :
  forall bl, data bl !! k = None ->
    Forall (fun e => forall ip, snd e = EvSet ip -> key ip <> k) tr ->
    data (run tr bl) !! k = None.
Proof.
  induction tr as [|[t ev] tr IH]; intros bl Hk Hside; simpl; [exact Hk|].
  apply Forall_cons in Hside as [Hs1 Hside]. apply IH; [|exact Hside].
  apply absent_step; [exact Hk|exact Hs1].
Qed.

Lemma no_set_after_set_by (k : string) (X : Z) (tr : list (Z * event)) :
  no_set_after k X tr = true -> Forall (set_by k X) tr.
Proof.
  unfold no_set_after. rewrite forallb_forall, Forall_forall.
  intros Hall [t ev] Hin. apply list_elem_of_In, Hall in Hin.
  unfold set_by. simpl in *. destruct ev as [ip|]; [|done]. intros Hk.
  apply orb_true_iff in Hin as [Hne|Hle]; [|by apply Z.leb_le].
  apply negb_true_iff, String.eqb_neq in Hne. done.
Qed.

Lemma track_after_Set (now t0 : Z) (ip : IP) (bl : t) :
  reach_inv now bl -> now <= t0 -> data bl !! key ip = None ->
  track (key ip) (t0 + ttl bl) t0 (Set_ t0 ip bl).
Proof.
  intros Hinv Hle Hk. pose proof (reach_inv_fresh _ _ _ Hinv Hk) as Hfresh.
  destruct Hinv as (Hs & Hb & _ & _). unfold Set_. rewrite Hk.
  repeat split; simpl.
  - apply sorted_snoc; [exact Hs|].
    eapply Forall_impl; [exact Hb|]. unfold expires_le. simpl. intros e ?. lia.
  - apply Forall_app. split.
    + eapply Forall_impl; [exact Hb|]. simpl. intros e ?. lia.
    + constructor; [simpl; lia|constructor].
  - apply Forall_app. split.
    + eapply Forall_impl; [exact Hfresh|]. simpl. intros e ? ?. done.
    + constructor; [simpl; done|constructor].
  - intros _. eexists. split; [apply elem_of_app; right; by left|done].
  - intros _. by rewrite lookup_insert_eq.
Qed.

Lemma upto_bounded (T : Z) (tr : list (Z * event)) :
  Forall (fun e => fst e <= T) (upto T tr).
Proof.
  apply Forall_forall. intros e Hin. apply list_elem_of_In, filter_In in Hin as [_ Hle].
  by apply Z.leb_le.
Qed.

Lemma upto_before (T t0 : Z) (tr : list (Z * event)) :
  chrono t0 tr = true -> T < t0 -> upto T tr = [].
Proof.
  intros Hc HT. pose proof (chrono_ge _ _ Hc) as Hge. unfold upto.
  induction Hge as [|[t ev] tr Ht _ IH]; [done|]. simpl in *.
  destruct (Z.leb_spec t T); [lia|]. apply IH.
  apply andb_true_iff in Hc as [_ Hc]. eapply chrono_weaken; [exact Hc|exact Ht].
Qed.

Lemma chronological_split (pre post : list (Z * event)) (t0 : Z) (ev : event) :
  chronological (pre ++ (t0, ev) :: post) = true ->
  exists from, from <= t0 /\ chrono from pre = true /\
    Forall (fun e => fst e <= t0) pre /\ chrono t0 post = true.
Proof.
  destruct pre as [|[t1 ev1] pre]; simpl.
  - intros [_ Hc]%andb_true_iff. exists t0.
    split; [lia|]. split; [done|]. split; [constructor|done].
  - intros [_ Hc]%andb_true_iff.
    destruct (chrono_app pre ((t0, ev) :: post) t1 Hc) as [Hc1 Hrest].
    destruct (Hrest t0 ev post eq_refl) as (Hall & Hle & Hc2).
    exists t1. split; [exact Hle|]. split.
    { apply andb_true_iff. split; [apply Z.leb_le; lia|exact Hc1]. }
    split; [constructor; [simpl; lia|exact Hall]|exact Hc2].
Qed.

(** As long as no sweep runs after the instant [X], a key that is in
    [data] with entries expiring at [X] or later stays there. *)
Lemma held_run (k : string) (X : Z) (tr : list (Z * event)) :
  forall bl,
    data bl !! k <> None ->
    Forall (fun e => bIP e = k -> X <= Expires e) (expiry bl) ->
    Forall (fun e => snd e = EvExpire -> fst e <= X) tr ->
    data (run tr bl) !! k <> None.
Proof.
  induction tr as [|[t ev] tr IH]; intros bl Hk Hex Hsw; simpl; [exact Hk|].
  apply Forall_cons in Hsw as [Hs1 Hsw]. simpl in Hs1.
  destruct ev as [ip|]; simpl.
  - unfold Set_. destruct (data bl !! key ip) eqn:E; [by apply IH|].
    assert (key ip <> k) as Hne by (intros Hkk; rewrite Hkk in E; done).
    apply IH; simpl; [by rewrite lookup_insert_ne| |exact Hsw].
    apply Forall_app. split; [exact Hex|].
    constructor; [simpl; intros ?; done|constructor].
  - specialize (Hs1 eq_refl).
    destruct (expire_loop_spec t (expiry bl) (data bl))
      as (gone & Heq & Hgone & _ & _ & Hkeep).
    apply IH; [| |exact Hsw].
    + rewrite data_expire, Hkeep; [exact Hk|].
      intros e Hin Hek. rewrite Heq in Hex. apply Forall_app in Hex as [Hex _].
      rewrite Forall_forall in Hgone, Hex.
      specialize (Hgone e Hin). specialize (Hex e Hin Hek). simpl in Hgone. lia.
    + rewrite expiry_expire. rewrite Heq in Hex. by apply Forall_app in Hex as [_ Hex].
Qed.

(** C5. An address that [Set] inserts at the instant [t0] is reported
    by [IsBlacklisted] at every instant from [t0] to [t0 + ttl].  After
    that it is reported for as long as [expire] has not run at an
    instant after [t0 + ttl], and no longer once [expire] has run at
    such an instant, when [Set] is not called for the address after
    [t0 + ttl].  The instant of that sweep is not bounded by
    [t0 + ttl + expireInterval]. *)
Theorem blacklisted_until_first_sweep_after_ttl
    (ttl0 ei : Z) (pre post : list (Z * event)) (ip : IP) (t0 T : Z) :
  let bl0 := run pre (NewBlacklist ttl0 ei) in
  let at_T := run (upto T ((t0, EvSet ip) :: post)) bl0 in
  chronological (pre ++ (t0, EvSet ip) :: post) = true ->
  IsBlacklisted bl0 ip = false ->
  (t0 <= T <= t0 + ttl0 -> IsBlacklisted at_T ip = true) /\
  (t0 <= T -> sweep_between (t0 + ttl0) T post = false ->
   IsBlacklisted at_T ip = true) /\
  (sweep_between (t0 + ttl0) T post = true ->
   no_set_after (key ip) (t0 + ttl0) post = true ->
   IsBlacklisted at_T ip = false).
Proof.
  intros bl0 at_T Hchr Hout.
  destruct (chronological_split _ _ _ _ Hchr) as (from & Hfrom & Hcpre & Hpre & Hcpost).
  assert (reach_inv t0 bl0) as Hinv.
  { eapply reach_inv_run; [apply (reach_inv_new from)|exact Hcpre|exact Hpre|exact Hfrom]. }
  assert (ttl bl0 = ttl0) as Httl by (unfold bl0; by rewrite ttl_run).
  apply not_IsBlacklisted_data in Hout.
  pose proof (track_after_Set t0 t0 ip bl0 Hinv (Z.le_refl _) Hout) as Htr.
  rewrite Httl in Htr.
  assert (t0 <= T -> at_T = run (upto T post) (Set_ t0 ip bl0)) as Hat.
  { intros HT. unfold at_T, upto. simpl.
    destruct (Z.leb_spec t0 T); [reflexivity|lia]. }
  pose proof (chrono_filter (fun e => fst e <=? T) post t0 Hcpost) as Hcup.
  fold (upto T post) in Hcup.
  assert (t0 <= T -> sweep_between (t0 + ttl0) T post = false ->
          IsBlacklisted at_T ip = true) as Hheld.
  { intros HT0 Hno. rewrite (Hat HT0). apply IsBlacklisted_data.
    apply (held_run (key ip) (t0 + ttl0)).
    - unfold Set_. rewrite Hout. simpl. by rewrite lookup_insert_eq.
    - destruct Htr as (_ & _ & Ht & _). eapply Forall_impl; [exact Ht|].
      simpl. intros e He Hk. rewrite (He Hk). lia.
    - apply Forall_forall. intros [t ev] Hin Hev. simpl in Hev. subst ev.
      apply list_elem_of_In, filter_In in Hin as [Hin Hle]. apply Z.leb_le in Hle.
      simpl in *. destruct (Z.le_gt_cases t (t0 + ttl0)) as [|Hgt]; [done|].
      exfalso. unfold sweep_between in Hno.
      assert (existsb (fun e => match snd e with
                                | EvExpire => (t0 + ttl0 <? fst e) && (fst e <=? T)
                                | EvSet _ => false
                                end) post = true) as Hyes; [|congruence].
      apply existsb_exists. exists (t, EvExpire). split; [exact Hin|]. simpl.
      apply andb_true_iff. split; [apply Z.ltb_lt|apply Z.leb_le]; lia. }
  split; [|split; [exact Hheld|]].
  - intros [HT0 HTX]. apply Hheld; [exact HT0|].
    apply not_true_is_false. intros Hsw. unfold sweep_between in Hsw.
    apply existsb_exists in Hsw as ([s ev] & _ & Hs). simpl in Hs.
    destruct ev; [discriminate|].
    apply andb_true_iff in Hs as [Hlo Hhi]. apply Z.ltb_lt in Hlo. apply Z.leb_le in Hhi. lia.
  - intros Hsw Hns. apply not_IsBlacklisted_data.
    destruct (Z.le_gt_cases t0 T) as [HT0|HT0]; cycle 1.
    { unfold at_T, upto. simpl. destruct (Z.leb_spec t0 T); [lia|].
      fold (upto T post). rewrite (upto_before T t0 post Hcpost) by lia. exact Hout. }
    rewrite (Hat HT0).
    unfold sweep_between in Hsw. apply existsb_exists in Hsw as ([s ev] & Hin & Hs).
    simpl in Hs. destruct ev as [|]; [discriminate|].
    apply andb_true_iff in Hs as [Hlo Hhi]. apply Z.ltb_lt in Hlo. apply Z.leb_le in Hhi.
    assert (In (s, EvExpire) (upto T post)) as Hin'.
    { apply filter_In. split; [exact Hin|]. simpl. apply Z.leb_le. lia. }
    apply in_split in Hin' as (l1 & l2 & Hsplit).
    pose proof (no_set_after_set_by _ _ _ Hns) as Hside.
    assert (Forall (set_by (key ip) (t0 + ttl0)) (upto T post)) as Hside'.
    { rewrite Forall_forall in Hside |- *. intros e He. apply Hside.
      apply list_elem_of_In, filter_In in He as [He _]. by apply list_elem_of_In. }
    rewrite Hsplit in Hcup, Hside' |- *.
    destruct (chrono_app l1 _ t0 Hcup) as [Hc1 Hrest].
    destruct (Hrest s EvExpire l2 eq_refl) as (Hall1 & Hle & Hc2).
    apply Forall_app in Hside' as [Hs1 Hs2]. apply Forall_cons in Hs2 as [_ Hs2].
    assert (run (l1 ++ (s, EvExpire) :: l2) (Set_ t0 ip bl0) =
            run l2 (expire s (run l1 (Set_ t0 ip bl0)))) as ->.
    { clear. generalize (Set_ t0 ip bl0). induction l1 as [|[t ev] l1 IH]; intros b; simpl; [done|apply IH]. }
    apply absent_run.
    + eapply track_sweep; [|exact Hlo].
      eapply track_run; [exact Htr|exact Hc1|exact Hall1|exact Hle|exact Hs1].
    + pose proof (chrono_ge _ _ Hc2) as Hge.
      rewrite Forall_forall in Hge, Hs2 |- *. intros [t ev] He ip' Hev Hk.
      simpl in Hev. subst ev. specialize (Hge _ He). specialize (Hs2 _ He).
      unfold set_by in Hs2. simpl in *. specialize (Hs2 Hk). lia.
Qed.

End BlacklistFacts.

(** With the sweeps of the test in the repository, an address inserted at
    0 with a time to live of 50 is reported at 50, still reported at 55,
    before the sweep of 60, and no longer at 60. *)
Lemma blacklisted_until_first_sweep_after_ttl_witness :
  let ip : IP := ParseIP "203.0.113.5" in
  let tr := (0, Trace.EvSet ip) :: sweeps_every_10 in
  Blacklist.IsBlacklisted (Trace.run (Trace.upto 50 tr) (Blacklist.NewBlacklist 50 10)) ip = true /\
  Blacklist.IsBlacklisted (Trace.run (Trace.upto 55 tr) (Blacklist.NewBlacklist 50 10)) ip = true /\
  Blacklist.IsBlacklisted (Trace.run (Trace.upto 60 tr) (Blacklist.NewBlacklist 50 10)) ip = false.
Proof.
  intros ip tr. split; [|split].
  - apply (proj1 (blacklisted_until_first_sweep_after_ttl
                    50 10 [] sweeps_every_10 ip 0 50 eq_refl eq_refl)).
    lia.
  - apply (proj1 (proj2 (blacklisted_until_first_sweep_after_ttl
                           50 10 [] sweeps_every_10 ip 0 55 eq_refl eq_refl)));
      [lia|reflexivity].
  - apply (proj2 (proj2 (blacklisted_until_first_sweep_after_ttl
                           50 10 [] sweeps_every_10 ip 0 60 eq_refl eq_refl)));
      reflexivity.
Defined.

(** The bound of one sweep interval fails on a run of [expireLoop].  The
    blacklist has a time to live of 20 and a sweep interval of 10; the
    loop starts at 0 and its sweeps run at 10, 21 and 32, each at least
    one interval after the one before.  The address inserted at 1
    expires at 21.  The sweep at 21 keeps it, because [Expires.Before(now)]
    is strict, and the next sweep runs at 32: at 31, which is
    [t0 + ttl + expireInterval], the address is still reported, and
    [Set] was called once only. *)
Lemma still_blacklisted_one_interval_after_ttl :
  let ip : IP := ParseIP "203.0.113.5" in
  let tr := (1, Trace.EvSet ip) :: sweeps_late in
  let bl := Blacklist.NewBlacklist 20 10 in
  Trace.expireLoop (Blacklist.expireInterval bl) 0 (Trace.sweep_times tr) = true /\
  Trace.chronological tr = true /\
  Trace.no_set_after (Blacklist.key ip) (1 + Blacklist.ttl bl) sweeps_late = true /\
  Blacklist.IsBlacklisted
    (Trace.run (Trace.upto (1 + Blacklist.ttl bl + Blacklist.expireInterval bl) tr) bl) ip = true.
Proof.
  cbv zeta. split; [|split; [|split]]; vm_compute; reflexivity.
Qed.

Lemma Set_present_is_noop_witness :
  let ip : IP := ParseIP "203.0.113.5" in
  let bl := Blacklist.Set_ 0 ip (Blacklist.NewBlacklist 50 10) in
  Blacklist.Set_ 7 ip bl = bl.
Proof.
  intros ip bl. apply (Set_present_is_noop 7 ip bl). reflexivity.
Defined.

(** ** The second engine: trimming, totals and the decision run *)

Section IPHistoryFacts.
Context `{NetLib}.
Import IPHistory IPHistoryRuns.

(** *** The loop [INNER] *)

Lemma drop_expired_ascending (cutoff : Z) (l : list IPHistoryItem) :
  StronglySorted (fun a b => Timestamp a < Timestamp b) l ->
  drop_expired cutoff l = List.filter (fun it => After (Timestamp it) cutoff) l.
Proof.
  induction 1 as [|x l Hs IH Hx]; simpl; [done|].
  unfold After in *. destruct (Z.ltb_spec cutoff (Timestamp x)) as [Hlt|Hge].
  - f_equal. symmetry. apply forallb_filter_id. apply forallb_forall.
    intros y Hy. rewrite Forall_forall in Hx.
    apply list_elem_of_In in Hy. specialize (Hx y Hy). simpl in Hx.
    apply Z.ltb_lt. lia.
  - exact IH.
Qed.

Lemma sorted_rev (l : list IPHistoryItem) :
  newest_first l ->
  StronglySorted (fun a b => Timestamp a < Timestamp b) (rev l).
Proof.
  unfold newest_first. induction 1 as [|x l Hs IH Hx]; simpl; [constructor|].
  apply StronglySorted_app_2; [|exact IH|repeat constructor].
  intros y z Hy Hz. apply list_elem_of_singleton in Hz. subst z.
  rewrite Forall_forall in Hx. apply Hx.
  apply list_elem_of_In, in_rev. by apply list_elem_of_In.
Qed.

(** On a list kept newest first, the loop removes the buckets at or
    before the cutoff and no others. *)
Lemma expire_old_newest_first (cutoff : Z) (counts : list IPHistoryItem) :
  newest_first counts ->
  expire_old cutoff counts =
  List.filter (fun it => After (Timestamp it) cutoff) counts.
Proof.
  intros Hs. unfold expire_old.
  rewrite drop_expired_ascending by (by apply sorted_rev).
  rewrite <- filter_rev. by rewrite rev_involutive.
Qed.

Lemma expire_old_excludes (cutoff : Z) (counts : list IPHistoryItem) (it : IPHistoryItem) :
  newest_first counts -> Timestamp it <= cutoff ->
  ~ In it (expire_old cutoff counts).
Proof.
  intros Hs Hle Hin. rewrite expire_old_newest_first in Hin by done.
  apply filter_In in Hin as [_ Ha]. unfold After in Ha. apply Z.ltb_lt in Ha. lia.
Qed.

(** *** The decision run *)

Lemma calculate_ip_spec (o : IPHistoryOptions) (cutoff : Z) (set_at : string -> Z)
    (d : gmap string (list IPHistoryItem)) (bl : Blacklist.t) (k : string) :
  calculate_ip o cutoff set_at (d, bl) k =
  (match d !! k with
   | None => d
   | Some counts =>
       match trimmed cutoff counts with
       | None => delete k d
       | Some counts' => <[k := counts']> d
       end
   end,
   if qualifies_in o cutoff d k
   then Blacklist.Set_ (set_at k) (ParseIP k) bl else bl).
Proof.
  unfold calculate_ip, qualifies_in, trimmed, totals.
  destruct (d !! k) as [counts|]; [|done].
  destruct (count_requests (expire_old cutoff counts)) as [total app].
  destruct (block_condition _ _ total app);
    by destruct (Z.of_nat (length (expire_old cutoff counts)) <=? 0).
Qed.

Lemma calculate_ip_other (o : IPHistoryOptions) (cutoff : Z) (set_at : string -> Z)
    (d : gmap string (list IPHistoryItem)) (bl : Blacklist.t) (k k' : string) :
  k <> k' -> fst (calculate_ip o cutoff set_at (d, bl) k) !! k' = d !! k'.
Proof.
  intros Hne. rewrite calculate_ip_spec. simpl.
  destruct (d !! k) as [counts|]; [|done].
  destruct (trimmed cutoff counts);
    [by rewrite lookup_insert_ne|by rewrite lookup_delete_ne].
Qed.

Lemma calculate_fold (o : IPHistoryOptions) (cutoff : Z) (set_at : string -> Z)
    (ips : list string) :
  forall d bl, NoDup ips ->
    let r := fold_left (calculate_ip o cutoff set_at) ips (d, bl) in
    snd r = Set_all set_at (List.filter (qualifies_in o cutoff d) ips) bl /\
    (forall k, k ∉ ips -> fst r !! k = d !! k) /\
    (forall k, k ∈ ips ->
       fst r !! k = match d !! k with
                    | None => None
                    | Some counts => trimmed cutoff counts
                    end).
Proof.
  induction ips as [|ip ips IH]; intros d bl Hnd r; subst r; cbn [fold_left].
  - split; [done|]. split; [done|]. intros k Hk. by apply elem_of_nil in Hk.
  - apply NoDup_cons in Hnd as [Hnotin Hnd].
    destruct (calculate_ip o cutoff set_at (d, bl) ip) as [d1 bl1] eqn:E.
    pose proof (calculate_ip_spec o cutoff set_at d bl ip) as Hspec.
    rewrite E in Hspec. injection Hspec as Hd1 Hbl1.
    assert (forall k, k <> ip -> d1 !! k = d !! k) as Hother.
    { intros k Hk. pose proof (calculate_ip_other o cutoff set_at d bl ip k) as Ho.
      rewrite E in Ho. apply Ho. done. }
    destruct (IH d1 bl1 Hnd) as (Hbl & Hout & Hin).
    split; [|split].
    + rewrite Hbl. cbn [List.filter].
      assert (List.filter (qualifies_in o cutoff d1) ips =
              List.filter (qualifies_in o cutoff d) ips) as ->.
      { apply filter_ext_in. intros k Hk. unfold qualifies_in.
        rewrite Hother; [done|]. intros ->. by apply Hnotin, list_elem_of_In. }
      rewrite Hbl1. by destruct (qualifies_in o cutoff d ip).
    + intros k Hk. apply not_elem_of_cons in Hk as [Hne Hk].
      rewrite Hout by done. by apply Hother.
    + intros k Hk. apply elem_of_cons in Hk as [->|Hk].
      * rewrite Hout by done. rewrite Hd1.
        destruct (d !! ip) as [counts|] eqn:Ed; [|done].
        destruct (trimmed cutoff counts);
          [by rewrite lookup_insert_eq|by rewrite lookup_delete_eq].
      * rewrite Hin by done. rewrite Hother; [done|]. by intros ->.
Qed.

Lemma Set_all_data (set_at : string -> Z) (ks : list string) (x : string) :
  forall bl, Blacklist.data (Set_all set_at ks bl) !! x <> None <->
    Blacklist.data bl !! x <> None \/
    exists k, In k ks /\ Blacklist.key (ParseIP k) = x.
Proof.
  induction ks as [|k ks IH]; intros bl; simpl.
  - split; [by left|]. intros [?|(? & [] & _)]. done.
  - unfold Set_all in *. simpl. rewrite IH.
    assert (Blacklist.data (Blacklist.Set_ (set_at k) (ParseIP k) bl) !! x <> None <->
            Blacklist.data bl !! x <> None \/ Blacklist.key (ParseIP k) = x) as ->.
    { unfold Blacklist.Set_.
      destruct (Blacklist.data bl !! Blacklist.key (ParseIP k)) eqn:E; simpl.
      - split; [by left|]. intros [?|<-]; [done|]. by rewrite E.
      - destruct (decide (Blacklist.key (ParseIP k) = x)) as [<-|Hne].
        + rewrite lookup_insert_eq. split; [by right|done].
        + rewrite lookup_insert_ne by done. split; [by left|]. by intros [?|?]. }
    split.
    + intros [[?|?]|(k' & Hk' & Hx)]; [by left|right; exists k; by split; [left|]|].
      right. exists k'. by split; [right|].
    + intros [?|(k' & [<-|Hk'] & Hx)]; [by left; left|by left; right|].
      right. by exists k'.
Qed.

(** The calls of [Set] of a decision run, and who is in the blacklist
    after it, in terms of what [count_requests] returns on the list that
    [expire_old] leaves. *)
Lemma decision_run_sets_qualifying (now : Z) (set_at : string -> Z)
    (ips : list string) (h : t) :
  ips ≡ₚ map fst (map_to_list (updatedIPs h)) ->
  let cutoff := now + (-1) * Window (options h) in
  let h' := calculate_in_order now set_at ips h in
  blacklist h' = Set_all set_at (List.filter (qualifies now h) ips) (blacklist h) /\
  (forall ip counts,
     In ip ips -> data h !! ip = Some counts ->
     (forall k, In k ips -> Blacklist.key (ParseIP k) = k) ->
     let '(total, app) := count_requests (expire_old cutoff counts) in
     IsBlacklisted h' (ParseIP ip) = true <->
     IsBlacklisted h (ParseIP ip) = true \/
     ((MaxRequests (options h) <? app) &&
      F64.gt (F64.div (F64.of_uint64 total) (F64.of_uint64 app))
        (MaxRatio (options h))) = true).
Proof.
  intros Hperm cutoff h'.
  assert (NoDup ips) as Hnd.
  { rewrite Hperm. change (map fst (map_to_list (updatedIPs h)))
      with ((map_to_list (updatedIPs h)).*1). apply NoDup_fst_map_to_list. }
  assert (blacklist h' =
          Set_all set_at (List.filter (qualifies now h) ips) (blacklist h)) as Hbl.
  { unfold h', calculate_in_order. fold cutoff.
    pose proof (calculate_fold (options h) cutoff set_at ips (data h) (blacklist h) Hnd)
      as (Hsnd & _).
    destruct (fold_left _ ips _) as [d bl]. simpl in *. exact Hsnd. }
  split; [exact Hbl|].
  intros ip counts Hin Hdata Hkeys.
  destruct (count_requests (expire_old cutoff counts)) as [total app] eqn:Et.
  unfold IsBlacklisted. rewrite !IsBlacklisted_data, Hbl, Set_all_data.
  assert (qualifies now h ip =
          block_condition (MaxRequests (options h)) (MaxRatio (options h)) total app) as Hq.
  { unfold qualifies, qualifies_in, totals. fold cutoff. by rewrite Hdata, Et. }
  unfold block_condition in Hq. rewrite <- Hq.
  split.
  - intros [?|(k & Hk & Hkey)]; [by left|right].
    apply filter_In in Hk as [Hk Hqk].
    rewrite (Hkeys k Hk), (Hkeys ip Hin) in Hkey. by subst k.
  - intros [?|Hqip]; [by left|right]. exists ip. split; [|done].
    apply filter_In. by split.
Qed.

(** *** Ingestion *)

Lemma process_other (req : Request) (h : t) (k : string) :
  Blacklist.key (ReqIP req) <> k -> data (process req h) !! k = data h !! k.
Proof. intros Hne. unfold process. simpl. by rewrite lookup_insert_ne. Qed.

Lemma process_same (req : Request) (h : t) :
  data (process req h) !! Blacklist.key (ReqIP req) =
  Some (record_request (currentSlot h) (URL req)
          (match data h !! Blacklist.key (ReqIP req) with
           | Some counts => counts
           | None => []
           end)).
Proof. unfold process. simpl. by rewrite lookup_insert_eq. Qed.

Lemma currentSlot_process (req : Request) (h : t) :
  currentSlot (process req h) = currentSlot h.
Proof. reflexivity. Qed.

Lemma requests_of_cons (k : string) (c : Classification) (req : Request)
    (reqs : list Request) :
  requests_of k c (req :: reqs) =
  (if String.eqb (Blacklist.key (ReqIP req)) k && same_class (classify (URL req)) c
   then 1 else 0) + requests_of k c reqs.
Proof.
  unfold requests_of. simpl.
  destruct (String.eqb _ _ && same_class _ _); simpl length; lia.
Qed.

Lemma requests_of_nonneg (k : string) (c : Classification) (reqs : list Request) :
  0 <= requests_of k c reqs.
Proof. unfold requests_of. lia. Qed.

Lemma wrap_add_l (x y : Z) : U64.wrap (U64.wrap x + y) = U64.wrap (x + y).
Proof. unfold U64.wrap. apply Zplus_mod_idemp_l. Qed.

Lemma wrap_small (x : Z) : U64.in_range x -> U64.wrap x = x.
Proof. intros Hx. unfold U64.wrap. apply Z.mod_small. exact Hx. Qed.

Lemma wrap_range (x : Z) : U64.in_range (U64.wrap x).
Proof. unfold U64.in_range, U64.wrap. apply Z.mod_pos_bound. reflexivity. Qed.

Lemma in_range_0 : U64.in_range 0.
Proof. unfold U64.in_range, U64.modulus. lia. Qed.

(** The bucket of the current slot counts the requests that follow. *)
Lemma process_requests_bucket (k : string) (reqs : list Request) :
  forall h c a o,
    U64.in_range c -> U64.in_range a -> U64.in_range o ->
    data h !! k =
      Some [{| Timestamp := currentSlot h; Count := c; App := a; Other := o |}] ->
    data (process_requests reqs h) !! k =
      Some [{| Timestamp := currentSlot h;
               Count := U64.wrap (c + (requests_of k Application reqs +
                                       requests_of k Asset reqs));
               App := U64.wrap (a + requests_of k Application reqs);
               Other := U64.wrap (o + requests_of k Asset reqs) |}].
Proof.
  induction reqs as [|req reqs IH]; intros h c a o Hc Ha Ho Hd.
  - simpl. rewrite Hd. unfold requests_of. simpl.
    rewrite !Z.add_0_r, !wrap_small by done. reflexivity.
  - unfold process_requests in *. cbn [fold_left]. rewrite !requests_of_cons.
    destruct (String.eqb_spec (Blacklist.key (ReqIP req)) k) as [Hk|Hk].
    + pose proof (process_same req h) as Hp. rewrite Hk, Hd in Hp.
      unfold record_request in Hp. cbn [Timestamp] in Hp.
      rewrite Z.eqb_refl in Hp. unfold bump in Hp. cbn [Timestamp Count App Other] in Hp.
      rewrite <- (currentSlot_process req h) in Hp |- *.
      destruct (classify (URL req)); cbn [same_class andb].
      * rewrite (IH _ _ _ _ (wrap_range _) (wrap_range _) Ho Hp).
        unfold U64.incr, U64.add. rewrite !wrap_add_l. f_equal. f_equal. f_equal; (f_equal; lia).
      * rewrite (IH _ _ _ _ (wrap_range _) Ha (wrap_range _) Hp).
        unfold U64.incr, U64.add. rewrite !wrap_add_l. f_equal. f_equal. f_equal; (f_equal; lia).
    + cbn [andb]. rewrite <- (currentSlot_process req h).
      rewrite (IH (process req h) c a o Hc Ha Ho).
      * do 3 f_equal.
      * rewrite process_other by done. rewrite currentSlot_process. exact Hd.
Qed.

Lemma process_requests_fresh (k : string) (reqs : list Request) :
  forall h, data h !! k = None ->
    let n := requests_of k Application reqs in
    let m := requests_of k Asset reqs in
    (n + m = 0 /\ data (process_requests reqs h) !! k = None) \/
    (0 < n + m /\
     data (process_requests reqs h) !! k =
       Some [{| Timestamp := currentSlot h; Count := U64.wrap (n + m);
                App := U64.wrap n; Other := U64.wrap m |}]).
Proof.
  induction reqs as [|req reqs IH]; intros h Hd n m; subst n m.
  - left. by split.
  - rewrite !requests_of_cons.
    pose proof (requests_of_nonneg k Application reqs) as Hn.
    pose proof (requests_of_nonneg k Asset reqs) as Hm.
    destruct (String.eqb_spec (Blacklist.key (ReqIP req)) k) as [Hk|Hk].
    + right. pose proof (process_same req h) as Hp. rewrite Hk, Hd in Hp.
      unfold record_request, bump, fresh_item in Hp.
      cbn [Timestamp Count App Other] in Hp.
      rewrite <- (currentSlot_process req h) in Hp |- *.
      unfold process_requests. cbn [fold_left]. fold (process_requests reqs (process req h)).
      destruct (classify (URL req)); cbn [same_class andb] in *.
      * split; [lia|].
        rewrite (process_requests_bucket k reqs _ _ _ _
                   (wrap_range _) (wrap_range _) in_range_0 Hp).
        unfold U64.incr, U64.add. rewrite !wrap_add_l. f_equal. f_equal. f_equal; (f_equal; lia).
      * split; [lia|].
        rewrite (process_requests_bucket k reqs _ _ _ _
                   (wrap_range _) in_range_0 (wrap_range _) Hp).
        unfold U64.incr, U64.add. rewrite !wrap_add_l. f_equal. f_equal. f_equal; (f_equal; lia).
    + cbn [andb]. rewrite !Z.add_0_l.
      unfold process_requests. cbn [fold_left]. fold (process_requests reqs (process req h)).
      rewrite <- (currentSlot_process req h). apply IH.
      by rewrite process_other.
Qed.

(** C8. After [n] requests classified as application and [m] classified
    as asset for one address, all counted in one slot that lies after
    the cutoff, [calculate] adds up [total = n + m] and [app = n].  The
    address has no bucket beforehand; requests of other addresses may
    come in between; the counters are [uint64], so [n + m] is below
    [2^64]. *)
Theorem totals_after_requests (h : t) (reqs : list Request) (ip : IP) (cutoff : Z) :
  let k := Blacklist.key ip in
  let n := requests_of k Application reqs in
  let m := requests_of k Asset reqs in
  data h !! k = None ->
  cutoff < currentSlot h ->
  0 < n + m < 2 ^ 64 ->
  exists counts,
    data (process_requests reqs h) !! k = Some counts /\
    totals cutoff counts = (n + m, n).
Proof.
  intros k n m Hd Hcut [Hpos Hlt].
  pose proof (requests_of_nonneg k Application reqs) as Hn.
  pose proof (requests_of_nonneg k Asset reqs) as Hm.
  destruct (process_requests_fresh k reqs h Hd) as [[Hz _]|[_ Hp]];
    [fold n m in Hz; lia|].
  fold n m in Hp. eexists. split; [exact Hp|].
  unfold totals, expire_old. cbn [rev app drop_expired Timestamp].
  unfold After. destruct (Z.ltb_spec cutoff (currentSlot h)); [|lia].
  cbn [rev app]. unfold count_requests. cbn [count_from Count App].
  unfold U64.add. rewrite !Z.add_0_l.
  assert (U64.in_range (n + m)) by (unfold U64.in_range, U64.modulus; lia).
  assert (U64.in_range n) by (unfold U64.in_range, U64.modulus; lia).
  rewrite !(wrap_small (n + m)), !(wrap_small n) by done. reflexivity.
Qed.

(** *** The sweep *)

Lemma expire_fold (cutoff : Z) (entries : list (string * list IPHistoryItem)) :
  forall d, NoDup (map fst entries) ->
    (forall k, k ∉ map fst entries ->
       fold_left (expire_ip cutoff) entries d !! k = d !! k) /\
    (forall k counts, (k, counts) ∈ entries ->
       fold_left (expire_ip cutoff) entries d !! k = trimmed cutoff counts).
Proof.
  induction entries as [|[ip counts] entries IH]; intros d Hnd; cbn [fold_left map fst].
  - split; [done|]. intros k counts Hk. by apply elem_of_nil in Hk.
  - cbn [map fst] in Hnd. apply NoDup_cons in Hnd as [Hnotin Hnd].
    destruct (IH (expire_ip cutoff d (ip, counts)) Hnd) as [Hout Hin].
    assert (forall k, k <> ip -> expire_ip cutoff d (ip, counts) !! k = d !! k) as Hother.
    { intros k Hk. unfold expire_ip.
      destruct (Z.of_nat (length (expire_old cutoff counts)) <=? 0);
        [by rewrite lookup_delete_ne|by rewrite lookup_insert_ne]. }
    split.
    + intros k Hk. apply not_elem_of_cons in Hk as [Hne Hk].
      rewrite Hout by done. by apply Hother.
    + intros k counts' Hk. apply elem_of_cons in Hk as [[= -> ->]|Hk].
      * rewrite Hout by done. unfold expire_ip, trimmed.
        destruct (Z.of_nat (length (expire_old cutoff counts)) <=? 0);
          [by rewrite lookup_delete_eq|by rewrite lookup_insert_eq].
      * by apply Hin.
Qed.

(** The sweep trims every list at the cutoff it read when its turn
    began, [started - Window]. *)
Lemma expire_data (started fired : Z) (h : t) (k : string) :
  data (expire started fired h) !! k =
  match data h !! k with
  | None => None
  | Some counts => trimmed (started + (-1) * Window (options h)) counts
  end.
Proof.
  unfold expire, expire_in_order. cbn [data].
  destruct (expire_fold (started + -1 * Window (options h))
              (map_to_list (data h)) (data h)) as [Hout Hin].
  { apply (NoDup_fst_map_to_list (data h)). }
  destruct (data h !! k) as [counts|] eqn:E.
  - apply Hin. by apply elem_of_map_to_list.
  - rewrite Hout; [exact E|]. intros Hk.
    apply list_elem_of_In, in_map_iff in Hk as ([k' c] & Hk & Hkc). simpl in Hk. subst k'.
    apply list_elem_of_In, elem_of_map_to_list in Hkc. congruence.
Qed.

End IPHistoryFacts.

(** ** Conversion and division in binary64 *)

Section Binary64Facts.
Import Binary64.

Lemma digits2_pos_bounds (p : positive) :
  2 ^ (Zpos (digits2_pos p) - 1) <= Zpos p < 2 ^ Zpos (digits2_pos p).
Proof.
  induction p as [p IH|p IH|]; cbn [digits2_pos].
  - rewrite Pos2Z.inj_succ. replace (Z.succ (Zpos (digits2_pos p)) - 1) with (Z.succ (Zpos (digits2_pos p) - 1)) by lia.
    rewrite !Z.pow_succ_r by lia. lia.
  - rewrite Pos2Z.inj_succ. replace (Z.succ (Zpos (digits2_pos p)) - 1) with (Z.succ (Zpos (digits2_pos p) - 1)) by lia.
    rewrite !Z.pow_succ_r by lia. lia.
  - simpl. lia.
Qed.

Lemma digits2_pos_unique (p : positive) (d : Z) :
  2 ^ (d - 1) <= Zpos p < 2 ^ d -> Zpos (digits2_pos p) = d.
Proof.
  intros [Hlo Hhi]. pose proof (digits2_pos_bounds p) as [Hlo' Hhi'].
  assert (0 < d).
  { destruct (Z.lt_ge_cases 0 d) as [|Hd]; [done|].
    apply Zle_lt_or_eq in Hd as [Hd| ->]; [rewrite Z.pow_neg_r in Hhi by done|simpl in Hhi]; lia. }
  assert (d - 1 < Zpos (digits2_pos p)).
  { apply (Z.pow_lt_mono_r_iff 2); lia. }
  assert (Zpos (digits2_pos p) - 1 < d).
  { apply (Z.pow_lt_mono_r_iff 2); lia. }
  lia.
Qed.

Lemma fexp_normal (x : Z) : -1021 <= x -> fexp 53 1024 x = x - 53.
Proof. intros Hx. unfold fexp, emin. lia. Qed.

Lemma shr_1_nonneg (m : Z) (r s : bool) :
  0 <= m ->
  shr_1 {| shr_m := m; shr_r := r; shr_s := s |} =
  {| shr_m := Z.div2 m; shr_r := Z.odd m; shr_s := r || s |}.
Proof.
  intros Hm. destruct m as [|[p|p|]|p]; try reflexivity. lia.
Qed.

Lemma iter_pos_nat {A : Type} (f : A -> A) (p : positive) :
  forall x, SpecFloat.iter_pos f p x = Nat.iter (Pos.to_nat p) f x.
Proof.
  induction p as [p IH|p IH|]; intros x; cbn [SpecFloat.iter_pos].
  - rewrite !IH, Pos2Nat.inj_xI.
    replace (S (2 * Pos.to_nat p))%nat with (Pos.to_nat p + S (Pos.to_nat p))%nat by lia.
    by rewrite Nat.iter_add, Nat.iter_succ_r.
  - rewrite !IH. rewrite Pos2Nat.inj_xO.
    replace (2 * Pos.to_nat p)%nat with (Pos.to_nat p + Pos.to_nat p)%nat by lia.
    by rewrite Nat.iter_add.
  - reflexivity.
Qed.

(** [k + 1] right shifts of an exact record. *)
Lemma shr_iter (n : Z) (k : nat) :
  0 <= n ->
  Nat.iter (S k) shr_1 {| shr_m := n; shr_r := false; shr_s := false |} =
  {| shr_m := n / 2 ^ (Z.of_nat k + 1);
     shr_r := Z.odd (n / 2 ^ Z.of_nat k);
     shr_s := negb (n mod 2 ^ Z.of_nat k =? 0) |}.
Proof.
  intros Hn. induction k as [|k IH].
  - cbn [Nat.iter]. rewrite shr_1_nonneg by done. simpl Z.of_nat.
    rewrite Z.div2_div, Z.pow_0_r, Z.div_1_r, Z.mod_1_r. reflexivity.
  - rewrite Nat.iter_succ, IH.
    assert (0 < 2 ^ Z.of_nat k) by (apply Z.pow_pos_nonneg; lia).
    assert (0 < 2 ^ (Z.of_nat k + 1)) by (apply Z.pow_pos_nonneg; lia).
    rewrite shr_1_nonneg by (apply Z.div_pos; lia).
    rewrite Z.div2_div, Z.div_div by lia.
    replace (Z.of_nat (S k)) with (Z.of_nat k + 1) by lia.
    replace (2 ^ (Z.of_nat k + 1) * 2) with (2 ^ (Z.of_nat k + 1 + 1))
      by (rewrite (Z.pow_add_r 2 (Z.of_nat k + 1) 1) by lia; reflexivity).
    f_equal.
    rewrite (Z.pow_add_r 2 (Z.of_nat k) 1) by lia. change (2 ^ 1) with 2.
    rewrite Z.rem_mul_r by lia.
    pose proof (Z.mod_pos_bound n (2 ^ Z.of_nat k) ltac:(lia)) as Hr.
    rewrite Zmod_odd.
    destruct (Z.odd (n / 2 ^ Z.of_nat k));
      destruct (Z.eqb_spec (n mod 2 ^ Z.of_nat k) 0) as [E|E];
      match goal with |- context [?x =? 0] =>
        destruct (Z.eqb_spec x 0) as [E2|E2] end;
      simpl; try reflexivity; exfalso; lia.
Qed.

Lemma round_of_shr_iter (n : Z) (k : nat) :
  0 <= n ->
  let mrs := Nat.iter (S k) shr_1 {| shr_m := n; shr_r := false; shr_s := false |} in
  round_nearest_even (shr_m mrs) (loc_of_shr_record mrs) =
  round_shift (Z.of_nat k + 1) n.
Proof.
  intros Hn mrs. subst mrs. rewrite shr_iter by done. unfold round_shift.
  cbn [shr_m]. replace (Z.of_nat k + 1 - 1) with (Z.of_nat k) by lia.
  assert (0 < 2 ^ Z.of_nat k) by (apply Z.pow_pos_nonneg; lia).
  rewrite (Z.pow_add_r 2 (Z.of_nat k) 1) by lia. change (2 ^ 1) with 2.
  rewrite Z.rem_mul_r by lia. rewrite Zmod_odd.
  pose proof (Z.mod_pos_bound n (2 ^ Z.of_nat k) ltac:(lia)) as Hr.
  set (q := n / (2 ^ Z.of_nat k * 2)).
  unfold loc_of_shr_record, round_nearest_even.
  rewrite <- Z.negb_odd.
  destruct (Z.odd (n / 2 ^ Z.of_nat k));
    destruct (Z.eqb_spec (n mod 2 ^ Z.of_nat k) 0) as [E|E]; simpl negb; cbv iota;
    match goal with |- context [?a <? ?b] => destruct (Z.ltb_spec a b) end;
    match goal with |- context [?a =? ?b] => destruct (Z.eqb_spec a b) end;
    destruct (Z.odd q); simpl; try reflexivity; exfalso; lia.
Qed.

Lemma round_shift_bounds (K n : Z) :
  0 < K -> 0 <= n -> n / 2 ^ K <= round_shift K n <= n / 2 ^ K + 1.
Proof.
  intros HK Hn. unfold round_shift.
  destruct ((_ <? _) || _); lia.
Qed.

Lemma round_shift_mono (K a t : Z) :
  0 < K -> 0 <= a -> a <= t -> round_shift K a <= round_shift K t.
Proof.
  intros HK Ha Hat.
  assert (0 < 2 ^ K) as Hp by (apply Z.pow_pos_nonneg; lia).
  pose proof (Z.div_le_mono a t (2 ^ K) Hp Hat) as Hq.
  pose proof (round_shift_bounds K a HK Ha) as [_ Hua].
  pose proof (round_shift_bounds K t HK ltac:(lia)) as [Hlt _].
  destruct (Z.eq_dec (a / 2 ^ K) (t / 2 ^ K)) as [E|E]; [|lia].
  unfold round_shift. rewrite <- E.
  pose proof (Z.div_mod a (2 ^ K) ltac:(lia)) as Hda.
  pose proof (Z.div_mod t (2 ^ K) ltac:(lia)) as Hdt.
  rewrite <- E in Hdt.
  assert (a mod 2 ^ K <= t mod 2 ^ K) by lia.
  destruct (Z.odd (a / 2 ^ K));
    repeat match goal with
      | |- context [?x <? ?y] => destruct (Z.ltb_spec x y)
      | |- context [?x =? ?y] => destruct (Z.eqb_spec x y)
      end; simpl; lia.
Qed.

Lemma Zdigits2_unique (m d : Z) :
  2 ^ (d - 1) <= m < 2 ^ d -> 0 < m -> Zdigits2 m = d.
Proof.
  intros Hb Hm. destruct m as [|p|p]; try lia. simpl. by apply digits2_pos_unique.
Qed.

Lemma shr_fexp_keep (m e : Z) (l : location) :
  2 ^ 52 <= m < 2 ^ 53 -> -1074 <= e ->
  shr_fexp 53 1024 m e l = (shr_record_of_loc m l, e).
Proof.
  intros Hm He. unfold shr_fexp.
  rewrite (Zdigits2_unique m 53) by lia.
  rewrite fexp_normal by lia.
  replace (53 + e - 53 - e) with 0 by lia. reflexivity.
Qed.

Lemma shr_fexp_one (m e : Z) (l : location) :
  2 ^ 53 <= m < 2 ^ 54 -> -1074 <= e ->
  shr_fexp 53 1024 m e l = (shr_1 (shr_record_of_loc m l), e + 1).
Proof.
  intros Hm He. unfold shr_fexp.
  rewrite (Zdigits2_unique m 54) by lia.
  rewrite fexp_normal by lia.
  replace (54 + e - 53 - e) with 1 by lia. reflexivity.
Qed.

Lemma shr_m_of_loc (m : Z) (l : location) : shr_m (shr_record_of_loc m l) = m.
Proof. by destruct l as [|[]]. Qed.

Lemma loc_of_shr_of_loc (m : Z) (l : location) :
  loc_of_shr_record (shr_record_of_loc m l) = l.
Proof. by destruct l as [|[]]. Qed.

Lemma round_nearest_even_bounds (m : Z) (l : location) :
  m <= round_nearest_even m l <= m + 1.
Proof. unfold round_nearest_even. destruct l as [|[]]; try destruct (Z.even m); lia. Qed.

Lemma binary_round_aux_finish (mx ex : Z) (lx : location) :
  binary_round_aux 53 1024 false mx ex lx =
  finish (round_nearest_even (shr_m (fst (shr_fexp 53 1024 mx ex lx)))
            (loc_of_shr_record (fst (shr_fexp 53 1024 mx ex lx))))
         (snd (shr_fexp 53 1024 mx ex lx)).
Proof.
  unfold binary_round_aux, finish. destruct (shr_fexp 53 1024 mx ex lx) as [mrs e].
  reflexivity.
Qed.

Lemma finish_spec (m1 e : Z) :
  2 ^ 52 <= m1 <= 2 ^ 53 -> -1074 <= e <= 970 ->
  finish m1 e = finite_of (renorm m1 e).
Proof.
  intros Hm He. unfold finish, renorm, finite_of.
  destruct (Z.ltb_spec m1 (2 ^ 53)) as [Hlt|Hge].
  - rewrite shr_fexp_keep by lia. cbn [shr_record_of_loc shr_m fst snd].
    destruct m1 as [|p|p]; try lia.
    destruct (Z.leb_spec e (1024 - 53)); [reflexivity|lia].
  - assert (m1 = 2 ^ 53) as -> by lia.
    rewrite shr_fexp_one by lia. cbn [shr_record_of_loc fst snd].
    change (shr_m (shr_1 {| shr_m := 2 ^ 53; shr_r := false; shr_s := false |}))
      with (2 ^ 52).
    change (2 ^ 52) with (Zpos (Z.to_pos (2 ^ 52))) at 1. cbv iota.
    destruct (Z.leb_spec (e + 1) (1024 - 53)); [reflexivity|lia].
Qed.

Lemma renorm_normal (m1 e : Z) :
  2 ^ 52 <= m1 <= 2 ^ 53 ->
  2 ^ 52 <= fst (renorm m1 e) < 2 ^ 53 /\ e <= snd (renorm m1 e) <= e + 1.
Proof. intros Hm. unfold renorm. destruct (Z.ltb_spec m1 (2 ^ 53)); simpl; lia. Qed.

Lemma iter_xO_pow (p s : positive) :
  Zpos (Pos.iter xO p s) = Zpos p * 2 ^ Zpos s.
Proof.
  apply (Pos.iter_ind positive xO p (fun s x => Zpos x = Zpos p * 2 ^ Zpos s)).
  - rewrite Z.pow_1_r. lia.
  - intros s' x Hx. rewrite Pos2Z.inj_succ, Z.pow_succ_r by lia.
    rewrite Pos2Z.inj_xO, Hx. lia.
Qed.

Lemma shl_align_spec (mx : positive) (ex ex' : Z) :
  ex' <= ex ->
  exists mz, shl_align mx ex ex' = (mz, ex') /\ Zpos mz = Zpos mx * 2 ^ (ex - ex').
Proof.
  intros Hle. unfold shl_align. destruct (ex' - ex) as [|d|d] eqn:E; try lia.
  - exists mx. assert (ex' = ex) as -> by lia. rewrite Z.sub_diag. split; [done|]. lia.
  - exists (Pos.iter xO mx d). split; [done|]. rewrite iter_xO_pow.
    do 2 f_equal. lia.
Qed.

Lemma shl_align_keep (mx : positive) (ex ex' : Z) :
  ex <= ex' -> shl_align mx ex ex' = (mx, ex).
Proof.
  intros Hle. unfold shl_align. destruct (ex' - ex) as [|d|d] eqn:E; try lia; done.
Qed.

Lemma log2_digits (n : Z) :
  0 < n -> 2 ^ (Z.log2 n + 1 - 1) <= n < 2 ^ (Z.log2 n + 1).
Proof.
  intros Hn. replace (Z.log2 n + 1 - 1) with (Z.log2 n) by lia.
  pose proof (Z.log2_spec n Hn). rewrite <- Z.add_1_r in H. exact H.
Qed.

Lemma div_pow_bounds (n K : Z) :
  0 < K -> 2 ^ (52 + K) <= n < 2 ^ (53 + K) -> 2 ^ 52 <= n / 2 ^ K < 2 ^ 53.
Proof.
  intros HK [Hlo Hhi]. rewrite !Z.pow_add_r in * by lia.
  assert (0 < 2 ^ K) by (apply Z.pow_pos_nonneg; lia).
  split.
  - apply Z.div_le_lower_bound; lia.
  - apply Z.div_lt_upper_bound; lia.
Qed.

Lemma round_shift_range (n K : Z) :
  0 < K -> 2 ^ (52 + K) <= n < 2 ^ (53 + K) ->
  2 ^ 52 <= round_shift K n <= 2 ^ 53.
Proof.
  intros HK Hn. pose proof (div_pow_bounds n K HK Hn).
  assert (0 <= n). { assert (0 < 2 ^ (52 + K)) by (apply Z.pow_pos_nonneg; lia). lia. }
  pose proof (round_shift_bounds K n HK ltac:(done)). lia.
Qed.

Lemma binary_normalize_conv (n : Z) :
  1 <= n < 2 ^ 64 ->
  binary_normalize 53 1024 n 0 false = finite_of (conv n).
Proof.
  intros [Hlo Hhi]. destruct n as [|p|p]; try lia.
  cbn [binary_normalize]. unfold binary_round, conv.
  pose proof (log2_digits (Zpos p) ltac:(lia)) as Hd.
  set (d := Z.log2 (Zpos p) + 1) in *.
  assert (1 <= d <= 64) as Hdr.
  { subst d. pose proof (Z.log2_nonneg (Zpos p)).
    assert (Z.log2 (Zpos p) < 64) by (apply Z.log2_lt_pow2; lia). lia. }
  rewrite (digits2_pos_unique p d Hd). rewrite fexp_normal by lia.
  destruct (Z.leb_spec d 53) as [Hle|Hgt].
  - destruct (shl_align_spec p 0 (d + 0 - 53) ltac:(lia)) as (mz & -> & Hmz).
    replace (0 - (d + 0 - 53)) with (53 - d) in Hmz by lia.
    assert (2 ^ 52 <= Zpos mz < 2 ^ 53) as Hr.
    { rewrite Hmz.
      assert (0 < 2 ^ (53 - d)) by (apply Z.pow_pos_nonneg; lia).
      assert (2 ^ 52 = 2 ^ (d - 1) * 2 ^ (53 - d)) as ->
        by (rewrite <- Z.pow_add_r by lia; f_equal; lia).
      assert (2 ^ 53 = 2 ^ d * 2 ^ (53 - d)) as ->
        by (rewrite <- Z.pow_add_r by lia; f_equal; lia).
      split; [apply Z.mul_le_mono_nonneg_r; lia|apply Z.mul_lt_mono_pos_r; lia]. }
    rewrite binary_round_aux_finish, shr_fexp_keep by lia.
    cbn [fst snd]. rewrite shr_m_of_loc, loc_of_shr_of_loc. cbn [round_nearest_even].
    rewrite finish_spec by lia. unfold renorm.
    destruct (Z.ltb_spec (Zpos mz) (2 ^ 53)); [|lia].
    rewrite Hmz. f_equal. f_equal. lia.
  - rewrite shl_align_keep by lia.
    rewrite binary_round_aux_finish. unfold shr_fexp.
    rewrite (Zdigits2_unique (Zpos p) d Hd) by lia. rewrite fexp_normal by lia.
    replace (d + 0 - 53 - 0) with (d - 53) by lia.
    destruct (d - 53) as [|kp|kp] eqn:EK; try lia.
    cbn [shr shr_record_of_loc fst snd]. rewrite iter_pos_nat.
    destruct (Pos.to_nat kp) as [|k] eqn:Ek; [lia|].
    rewrite round_of_shr_iter by lia.
    replace (Z.of_nat k + 1) with (Zpos kp) by lia.
    replace (0 + Zpos kp) with (Zpos kp) by lia.
    rewrite finish_spec; [reflexivity| |lia].
    apply round_shift_range; [lia|].
    replace (52 + Zpos kp) with (d - 1) by lia. replace (53 + Zpos kp) with d by lia.
    exact Hd.
Qed.

Lemma conv_normal (n : Z) :
  1 <= n < 2 ^ 64 ->
  2 ^ 52 <= fst (conv n) < 2 ^ 53 /\ -52 <= snd (conv n) <= 12.
Proof.
  intros [Hlo Hhi]. unfold conv.
  pose proof (log2_digits n ltac:(lia)) as Hd.
  set (d := Z.log2 n + 1) in *.
  assert (1 <= d <= 64) as Hdr.
  { subst d. pose proof (Z.log2_nonneg n).
    assert (Z.log2 n < 64) by (apply Z.log2_lt_pow2; lia). lia. }
  destruct (Z.leb_spec d 53) as [Hle|Hgt]; cbn [fst snd].
  - split; [|lia].
    assert (0 < 2 ^ (53 - d)) by (apply Z.pow_pos_nonneg; lia).
    assert (2 ^ 52 = 2 ^ (d - 1) * 2 ^ (53 - d)) as ->
      by (rewrite <- Z.pow_add_r by lia; f_equal; lia).
    assert (2 ^ 53 = 2 ^ d * 2 ^ (53 - d)) as ->
      by (rewrite <- Z.pow_add_r by lia; f_equal; lia).
    split; [apply Z.mul_le_mono_nonneg_r; lia|apply Z.mul_lt_mono_pos_r; lia].
  - assert (2 ^ 52 <= round_shift (d - 53) n <= 2 ^ 53) as Hr.
    { apply round_shift_range; [lia|].
      replace (52 + (d - 53)) with (d - 1) by lia.
      replace (53 + (d - 53)) with d by lia. exact Hd. }
    pose proof (renorm_normal _ (d - 53) Hr). lia.
Qed.

Lemma conv_mono (a t : Z) :
  1 <= a -> a <= t -> t < 2 ^ 64 -> lex_le (conv a) (conv t).
Proof.
  intros Ha Hat Ht.
  pose proof (conv_normal a ltac:(lia)) as [Hma Hea].
  pose proof (conv_normal t ltac:(lia)) as [Hmt Het].
  unfold lex_le. revert Hma Hea Hmt Het. unfold conv.
  pose proof (log2_digits a ltac:(lia)) as Hda.
  pose proof (log2_digits t ltac:(lia)) as Hdt.
  pose proof (Z.log2_le_mono a t Hat) as Hlog.
  set (da := Z.log2 a + 1) in *. set (dt := Z.log2 t + 1) in *.
  assert (1 <= da) by (subst da; pose proof (Z.log2_nonneg a); lia).
  assert (dt <= 64).
  { subst dt. assert (Z.log2 t < 64) by (apply Z.log2_lt_pow2; lia). lia. }
  assert (da <= dt) by lia.
  destruct (Z.leb_spec da 53) as [Hlea|Hgta];
    destruct (Z.leb_spec dt 53) as [Hlet|Hgtt]; try lia; cbn [fst snd].
  - intros _ _ _ _. destruct (Z.eq_dec da dt) as [E|E]; [right|left; lia].
    split; [lia|]. rewrite E. apply Z.mul_le_mono_nonneg_r; [|lia].
    apply Z.pow_nonneg. lia.
  - intros _ _ _ Het. left.
    assert (2 ^ 52 <= round_shift (dt - 53) t <= 2 ^ 53) as Hr.
    { apply round_shift_range; [lia|].
      replace (52 + (dt - 53)) with (dt - 1) by lia.
      replace (53 + (dt - 53)) with dt by lia. exact Hdt. }
    pose proof (renorm_normal _ (dt - 53) Hr). lia.
  - intros _ _ _ _.
    assert (2 ^ 52 <= round_shift (da - 53) a <= 2 ^ 53) as Hra.
    { apply round_shift_range; [lia|].
      replace (52 + (da - 53)) with (da - 1) by lia.
      replace (53 + (da - 53)) with da by lia. exact Hda. }
    assert (2 ^ 52 <= round_shift (dt - 53) t <= 2 ^ 53) as Hrt.
    { apply round_shift_range; [lia|].
      replace (52 + (dt - 53)) with (dt - 1) by lia.
      replace (53 + (dt - 53)) with dt by lia. exact Hdt. }
    destruct (Z.eq_dec da dt) as [E|E].
    + rewrite <- E in *.
      pose proof (round_shift_mono (da - 53) a t ltac:(lia) ltac:(lia) Hat) as Hm.
      unfold renorm.
      destruct (Z.ltb_spec (round_shift (da - 53) a) (2 ^ 53));
        destruct (Z.ltb_spec (round_shift (da - 53) t) (2 ^ 53));
        cbn [fst snd]; lia.
    + unfold renorm.
      destruct (Z.ltb_spec (round_shift (da - 53) a) (2 ^ 53));
        destruct (Z.ltb_spec (round_shift (dt - 53) t) (2 ^ 53));
        cbn [fst snd]; lia.
Qed.

Lemma SFdiv_normal (m1 e1 m2 e2 : Z) :
  2 ^ 52 <= m1 < 2 ^ 53 -> 2 ^ 52 <= m2 < 2 ^ 53 ->
  -52 <= e1 <= 12 -> -52 <= e2 <= 12 ->
  lex_le (m2, e2) (m1, e1) ->
  exists m e,
    SFdiv 53 1024 (finite_of (m1, e1)) (finite_of (m2, e2)) = finite_of (m, e) /\
    2 ^ 52 <= m < 2 ^ 53 /\ -52 <= e.
Proof.
  intros Hm1 Hm2 He1 He2 Hle. unfold lex_le in Hle. cbn [fst snd] in Hle.
  unfold finite_of at 1 2. cbn [fst snd SFdiv xorb].
  unfold SFdiv_core_binary.
  destruct m1 as [|p1|p1]; try lia. destruct m2 as [|p2|p2]; try lia.
  cbn [Z.to_pos].
  rewrite (Zdigits2_unique (Zpos p1) 53), (Zdigits2_unique (Zpos p2) 53) by lia.
  rewrite fexp_normal by lia.
  replace (Z.min (53 + e1 - (53 + e2) - 53) (e1 - e2)) with (e1 - e2 - 53) by lia.
  replace (e1 - e2 - (e1 - e2 - 53)) with 53 by lia. cbv iota.
  rewrite Z.shiftl_mul_pow2 by lia.
  pose proof (Z_div_mod (Zpos p1 * 2 ^ 53) (Zpos p2) ltac:(lia)) as Hdm.
  destruct (Z.div_eucl (Zpos p1 * 2 ^ 53) (Zpos p2)) as [q r].
  destruct Hdm as [Hq Hr].
  rewrite binary_round_aux_finish.
  set (l := new_location (Zpos p2) r). clearbody l.
  destruct (Z_lt_le_dec (Zpos p1) (Zpos p2)) as [Hlt|Hge].
  - assert (2 ^ 52 <= q < 2 ^ 53) as Hqr by nia.
    rewrite shr_fexp_keep by lia. cbn [fst snd].
    rewrite shr_m_of_loc, loc_of_shr_of_loc.
    pose proof (round_nearest_even_bounds q l) as Hrb.
    rewrite finish_spec by lia.
    pose proof (renorm_normal (round_nearest_even q l) (e1 - e2 - 53) ltac:(lia)) as [Hn1 Hn2].
    destruct (renorm (round_nearest_even q l) (e1 - e2 - 53)) as [m e].
    exists m, e. cbn [fst snd] in *. split; [reflexivity|]. lia.
  - assert (2 ^ 53 <= q < 2 ^ 54) as Hqr by nia.
    rewrite shr_fexp_one by lia. cbn [fst snd].
    assert (exists r' s', shr_1 (shr_record_of_loc q l) =
              {| shr_m := Z.div2 q; shr_r := r'; shr_s := s' |}) as (r' & s' & ->).
    { destruct l as [|[]]; cbn [shr_record_of_loc];
        rewrite shr_1_nonneg by lia; eauto. }
    cbn [shr_m].
    set (l' := loc_of_shr_record _). clearbody l'.
    pose proof (round_nearest_even_bounds (Z.div2 q) l') as Hrb.
    assert (2 ^ 52 <= Z.div2 q < 2 ^ 53) as Hh.
    { rewrite Z.div2_div. split; [apply Z.div_le_lower_bound; lia|apply Z.div_lt_upper_bound; lia]. }
    rewrite finish_spec by lia.
    pose proof (renorm_normal (round_nearest_even (Z.div2 q) l') (e1 - e2 - 53 + 1) ltac:(lia)) as [Hn1 Hn2].
    destruct (renorm (round_nearest_even (Z.div2 q) l') (e1 - e2 - 53 + 1)) as [m e].
    exists m, e. cbn [fst snd] in *. split; [reflexivity|]. lia.
Qed.

Lemma compare_cont_Z (p q : positive) :
  Pos.compare_cont Eq p q = (Zpos p ?= Zpos q).
Proof. reflexivity. Qed.

Lemma above_one (m e : Z) :
  2 ^ 52 <= m -> -52 <= e -> SFleb F64.one (finite_of (m, e)) = true.
Proof.
  intros Hm He. unfold SFleb, SFcompare, F64.one, finite_of. cbn [fst snd].
  destruct (Z.compare_spec (-52) e) as [E|E|E]; [|reflexivity|lia].
  rewrite compare_cont_Z, Z2Pos.id by lia.
  destruct (Z.compare_spec 4503599627370496 m) as [E'|E'|E']; try reflexivity. lia.
Qed.

Lemma below_one_below (r : spec_float) (m e : Z) :
  SFltb r F64.one = true -> 2 ^ 52 <= m -> -52 <= e ->
  SFltb r (finite_of (m, e)) = true.
Proof.
  intros Hr Hm He. unfold SFltb, SFcompare, F64.one, finite_of in *. cbn [fst snd].
  destruct r as [s|s| |s mr er]; try discriminate.
  - reflexivity.
  - by destruct s.
  - destruct s; [reflexivity|].
    destruct (Z.compare_spec er (-52)) as [E|E|E]; try discriminate.
    + subst er. rewrite compare_cont_Z in Hr.
      destruct (Z.compare_spec (Zpos mr) 4503599627370496) as [E'|E'|E']; try discriminate.
      destruct (Z.compare_spec (-52) e) as [E|E|E]; [|reflexivity|lia].
      rewrite compare_cont_Z, Z2Pos.id by lia.
      destruct (Z.compare_spec (Zpos mr) m) as [E''|E''|E'']; try reflexivity; lia.
    + destruct (Z.compare_spec er e) as [E'|E'|E']; [lia|reflexivity|lia].
Qed.

(** For [1 <= app <= total < 2^64] the quotient of the two conversions is
    a double that is at least one. *)
Lemma ratio_normal (total app : Z) :
  1 <= app -> app <= total -> total < 2 ^ 64 ->
  exists m e,
    SFdiv 53 1024 (binary_normalize 53 1024 total 0 false)
                  (binary_normalize 53 1024 app 0 false) = finite_of (m, e) /\
    2 ^ 52 <= m < 2 ^ 53 /\ -52 <= e.
Proof.
  intros Ha Hat Ht.
  rewrite !binary_normalize_conv by lia.
  pose proof (conv_normal app ltac:(lia)) as [Hma Hea].
  pose proof (conv_normal total ltac:(lia)) as [Hmt Het].
  pose proof (conv_mono app total Ha Hat Ht) as Hle.
  destruct (conv app) as [m2 e2], (conv total) as [m1 e1]. cbn [fst snd] in *.
  by apply SFdiv_normal.
Qed.

End Binary64Facts.

(** ** Totals and the ratio *)

Section RatioFacts.
Import Binary64.

Lemma count_from_wrap (counts : list IPHistoryItem) :
  forall total app, U64.in_range total -> U64.in_range app ->
    count_from total app counts =
    (U64.wrap (total + sum_Count counts), U64.wrap (app + sum_App counts)).
Proof.
  induction counts as [|node next IH]; intros total app Ht Ha; simpl.
  - by rewrite !Z.add_0_r, !wrap_small.
  - rewrite IH by apply wrap_range. unfold U64.add.
    rewrite !wrap_add_l. f_equal; f_equal; lia.
Qed.

Lemma sums_ordered (counts : list IPHistoryItem) :
  Forall bucket_ok counts -> 0 <= sum_App counts <= sum_Count counts.
Proof.
  induction 1 as [|it l (Ha & Ho & Hc) _ IH]; simpl; [lia|]. lia.
Qed.

Lemma drop_expired_suffix (cutoff : Z) (l : list IPHistoryItem) :
  exists gone, l = gone ++ drop_expired cutoff l.
Proof.
  induction l as [|x l [gone IH]]; simpl; [by exists []|].
  destruct (After (Timestamp x) cutoff); [by exists []|].
  exists (x :: gone). simpl. by f_equal.
Qed.

Lemma expire_old_prefix (cutoff : Z) (counts : list IPHistoryItem) :
  exists gone, counts = expire_old cutoff counts ++ gone.
Proof.
  unfold expire_old. destruct (drop_expired_suffix cutoff (rev counts)) as [gone Hg].
  exists (rev gone). rewrite <- rev_app_distr, <- Hg. by rewrite rev_involutive.
Qed.

Lemma sum_Count_app (l1 l2 : list IPHistoryItem) :
  sum_Count (l1 ++ l2) = sum_Count l1 + sum_Count l2.
Proof. induction l1 as [|x l1 IH]; simpl; lia. Qed.

(** The loop [INNER], read from the back of the list: it removes buckets
    at or before the cutoff only, and stops in front of a bucket after the
    cutoff or when nothing is left. *)
Lemma drop_expired_split (cutoff : Z) (l : list IPHistoryItem) :
  exists gone,
    l = gone ++ drop_expired cutoff l /\
    Forall (fun it => Timestamp it <= cutoff) gone /\
    match drop_expired cutoff l with
    | [] => True
    | x :: _ => cutoff < Timestamp x
    end.
Proof.
  induction l as [|x l (gone & Hl & Hgone & Hhd)]; simpl.
  - exists []. by repeat split.
  - unfold After. destruct (Z.ltb_spec cutoff (Timestamp x)) as [Hlt|Hge].
    + exists []. by repeat split.
    + exists (x :: gone). split; [simpl; by f_equal|]. split; [by constructor|exact Hhd].
Qed.

Lemma expire_old_split (cutoff : Z) (counts : list IPHistoryItem) :
  exists gone,
    counts = expire_old cutoff counts ++ gone /\
    Forall (fun it => Timestamp it <= cutoff) gone /\
    match last (expire_old cutoff counts) with
    | Some it => cutoff < Timestamp it
    | None => True
    end.
Proof.
  unfold expire_old.
  destruct (drop_expired_split cutoff (rev counts)) as (gone & Hl & Hgone & Hhd).
  exists (rev gone). split; [|split].
  - rewrite <- rev_app_distr, <- Hl. by rewrite rev_involutive.
  - apply Forall_forall. intros it Hin. rewrite Forall_forall in Hgone. apply Hgone.
    apply list_elem_of_In. apply list_elem_of_In in Hin. by apply in_rev.
  - destruct (drop_expired cutoff (rev counts)) as [|x l]; simpl; [done|].
    by rewrite last_snoc.
Qed.

Lemma count_requests_sums (counts : list IPHistoryItem) :
  count_requests counts = (sum_Count counts mod 2 ^ 64, sum_App counts mod 2 ^ 64).
Proof.
  unfold count_requests. rewrite count_from_wrap by apply in_range_0.
  by rewrite !Z.add_0_l.
Qed.

(** C4. For buckets whose total is the sum of their two classes, and
    whose totals fit a [uint64], the sums that [calculate] takes over the
    retained buckets satisfy [app <= total]; with at least one
    application request the quotient [float64(total)/float64(app)] is at
    least one, and for a [MaxRatio] below one the block condition is
    the test [app > MaxRequests] alone. *)
Theorem ratio_clause_void_below_one (cutoff : Z) (counts : list IPHistoryItem)
    (total app MaxRequests : Z) (MaxRatio : F64.float64) :
  Forall bucket_ok counts ->
  sum_Count counts < 2 ^ 64 ->
  IPHistory.totals cutoff counts = (total, app) ->
  1 <= app ->
  app <= total /\
  F64.ge (F64.div (F64.of_uint64 total) (F64.of_uint64 app)) F64.one = true /\
  (F64.lt MaxRatio F64.one = true ->
   block_condition MaxRequests MaxRatio total app = (MaxRequests <? app)).
Proof.
  intros Hok Hsum Htot Happ. unfold IPHistory.totals, count_requests in Htot.
  destruct (expire_old_prefix cutoff counts) as [gone Hsplit].
  set (kept := expire_old cutoff counts) in *.
  rewrite Hsplit in Hok, Hsum. apply Forall_app in Hok as [Hkept Hgone].
  rewrite sum_Count_app in Hsum.
  pose proof (sums_ordered kept Hkept) as Hk.
  pose proof (sums_ordered gone Hgone) as Hg.
  rewrite count_from_wrap in Htot by apply in_range_0.
  rewrite !Z.add_0_l in Htot.
  rewrite !wrap_small in Htot by (unfold U64.in_range, U64.modulus; lia).
  injection Htot as <- <-.
  destruct (ratio_normal (sum_Count kept) (sum_App kept)) as (m & e & Hdiv & Hm & He);
    [lia|lia|lia|].
  split; [lia|]. unfold F64.ge, F64.lt, block_condition, F64.gt, F64.div, F64.of_uint64,
    F64.prec, F64.emax. rewrite Hdiv. split.
  - apply above_one; lia.
  - intros Hr. rewrite (below_one_below MaxRatio m e Hr) by lia. apply andb_true_r.
Qed.

End RatioFacts.

Section DecisionFacts.
Context `{NetLib}.
Import IPHistory IPHistoryRuns Binary64.

(** C3. A decision run visits the keys taken from the set of updated
    addresses and calls [Set] for those that qualify, and for no others.
    A key without a list does not qualify.  For a key with a list, the
    loop [INNER] splits the list into the buckets it keeps and the
    buckets it removes from the back: the removed ones all lie at or
    before the cutoff [now - Window], and the last one kept, if any, lies
    after it; on a list kept newest first the kept buckets are exactly
    those after the cutoff.  With [total] and [app] the sums of [Count]
    and of [App] over the kept buckets, taken in [uint64], the key
    qualifies exactly when [app > MaxRequests] and
    [float64(total)/float64(app) > MaxRatio]; and the address is in the
    blacklist after the run exactly when it was in it before or this
    condition holds. *)
Theorem decision_run_blocks_iff_condition (now : Z) (set_at : string -> Z)
    (ips : list string) (h : t) :
  ips ≡ₚ map fst (map_to_list (updatedIPs h)) ->
  let cutoff := now + (-1) * Window (options h) in
  let h' := calculate_in_order now set_at ips h in
  blacklist h' = Set_all set_at (List.filter (qualifies now h) ips) (blacklist h) /\
  (forall ip, In ip ips -> data h !! ip = None -> qualifies now h ip = false) /\
  (forall ip counts,
     In ip ips -> data h !! ip = Some counts ->
     exists kept gone,
       counts = kept ++ gone /\
       Forall (fun it => Timestamp it <= cutoff) gone /\
       match last kept with
       | Some it => cutoff < Timestamp it
       | None => True
       end /\
       (newest_first counts ->
        kept = List.filter (fun it => cutoff <? Timestamp it) counts) /\
       let total := sum_Count kept mod 2 ^ 64 in
       let app := sum_App kept mod 2 ^ 64 in
       let condition :=
         (MaxRequests (options h) <? app) &&
         F64.gt (F64.div (F64.of_uint64 total) (F64.of_uint64 app))
           (MaxRatio (options h)) in
       qualifies now h ip = condition /\
       ((forall k, In k ips -> Blacklist.key (ParseIP k) = k) ->
        IsBlacklisted h' (ParseIP ip) = true <->
        IsBlacklisted h (ParseIP ip) = true \/ condition = true)).
Proof.
  intros Hperm cutoff h'.
  pose proof (decision_run_sets_qualifying now set_at ips h Hperm) as Hrun.
  cbv zeta in Hrun. fold cutoff in Hrun. fold h' in Hrun.
  destruct Hrun as [Hbl Hmem].
  split; [exact Hbl|]. split.
  - intros ip _ Hnone. unfold qualifies, qualifies_in. by rewrite Hnone.
  - intros ip counts Hin Hdata.
    destruct (expire_old_split cutoff counts) as (gone & Heq & Hgone & Hlast).
    exists (expire_old cutoff counts), gone.
    split; [exact Heq|]. split; [exact Hgone|]. split; [exact Hlast|]. split.
    { intros Hnf. exact (expire_old_newest_first cutoff counts Hnf). }
    pose proof (count_requests_sums (expire_old cutoff counts)) as Hsum.
    cbv zeta. split.
    + unfold qualifies, qualifies_in, totals. fold cutoff.
      rewrite Hdata, Hsum. reflexivity.
    + intros Hkeys. specialize (Hmem ip counts Hin Hdata Hkeys).
      rewrite Hsum in Hmem. exact Hmem.
Qed.

End DecisionFacts.

Lemma ratio_clause_void_below_one_witness :
  40 <= 42 /\
  F64.ge (F64.div (F64.of_uint64 42) (F64.of_uint64 40)) F64.one = true /\
  (F64.lt F64.default_max_ratio F64.one = true ->
   block_condition 30 F64.default_max_ratio 42 40 = (30 <? 40)).
Proof.
  apply (ratio_clause_void_below_one (-3600) [bucket_42] 42 40 30 F64.default_max_ratio).
  - constructor; [unfold Binary64.bucket_ok; simpl; lia|constructor].
  - reflexivity.
  - reflexivity.
  - lia.
Defined.

(** C7. A sweep whose turn began at 150 and whose timer fired at 160,
    with a window of 60, leaves the bucket of slot 95 in place, although
    the slot is at or before [160 - 60]: the cutoff is the one read when
    the turn began.  The decision run at 160 removes the bucket. *)
Theorem sweep_keeps_bucket_behind_window :
  160 = 150 + IPHistory.ExpireInterval sweep_options /\
  Timestamp bucket_95 <= 160 - IPHistory.Window sweep_options /\
  IPHistory.data (IPHistory.expire 150 160 sweep_history) !! "203.0.113.5"
    = Some [bucket_95] /\
  IPHistory.data (IPHistory.calculate_in_order 160 (fun _ => 160)
                    ["203.0.113.5"] sweep_history) !! "203.0.113.5" = None.
Proof. repeat split; vm_compute; (reflexivity || discriminate). Qed.

Lemma decision_run_blocks_iff_condition_witness :
  let h := decision_history in
  let ips := map fst (map_to_list (IPHistory.updatedIPs h)) in
  IPHistory.blacklist (IPHistory.calculate_in_order 5 (fun _ => 5) ips h) =
  IPHistoryRuns.Set_all (fun _ => 5)
    (List.filter (IPHistoryRuns.qualifies 5 h) ips) (IPHistory.blacklist h).
Proof.
  intros h ips.
  exact (proj1 (decision_run_blocks_iff_condition 5 (fun _ => 5) ips h
                  (reflexivity ips))).
Defined.

Example decision_run_scenario :
  let h' := IPHistory.calculate 5 (fun _ => 5) decision_history in
  IPHistory.IsBlacklisted h' (ParseIP "203.0.113.5") = true /\
  IPHistory.IsBlacklisted h' (ParseIP "203.0.113.9") = false.
Proof. cbv zeta. split; vm_compute; reflexivity. Qed.

Lemma totals_after_requests_witness :
  let k := Blacklist.key (ParseIP "203.0.113.5") in
  exists counts,
    IPHistory.data (IPHistoryRuns.process_requests scenario_requests
                      (IPHistory.NewIPHistory sweep_options 0)) !! k = Some counts /\
    IPHistory.totals (-3600) counts =
      (IPHistoryRuns.requests_of k Application scenario_requests +
       IPHistoryRuns.requests_of k Asset scenario_requests,
       IPHistoryRuns.requests_of k Application scenario_requests).
Proof.
  apply (totals_after_requests (IPHistory.NewIPHistory sweep_options 0)
           scenario_requests (ParseIP "203.0.113.5") (-3600)).
  - reflexivity.
  - reflexivity.
  - vm_compute. split; reflexivity.
Defined.

(** ** More on the blacklist with a time to live *)

Section BlacklistMore.
Context `{NetLib}.
Import Blacklist Trace BlacklistInv.

Lemma reach_inv_run_ex (tr : list (Z * event)) :
  forall now bl, reach_inv now bl -> chrono now tr = true ->
    exists T, now <= T /\ reach_inv T (run tr bl).
Proof.
  induction tr as [|[t ev] tr IH]; intros now bl Hinv Hc; simpl.
  - exists now. split; [lia|exact Hinv].
  - simpl in Hc. apply andb_true_iff in Hc as [Hle Hc]. apply Z.leb_le in Hle.
    destruct (IH t (step t ev bl)) as (T & HT & Hfin); [|exact Hc|].
    + by eapply reach_inv_step.
    + exists T. split; [lia|exact Hfin].
Qed.

Lemma reachable_inv (ttl0 ei : Z) (tr : list (Z * event)) :
  chronological tr = true ->
  exists T, reach_inv T (run tr (NewBlacklist ttl0 ei)).
Proof.
  destruct tr as [|[t ev] tr]; intros Hc.
  - exists 0. apply reach_inv_new.
  - unfold chronological in Hc.
    destruct (reach_inv_run_ex ((t, ev) :: tr) t (NewBlacklist ttl0 ei))
      as (T & _ & Hfin); [apply reach_inv_new|exact Hc|]. by exists T.
Qed.

(** Every address in [data] has an entry in the expiry list. *)
Lemma covered_step (now : Z) (ev : event) (bl : t) :
  (forall k, data bl !! k <> None -> k ∈ (bIP <$> expiry bl)) ->
  forall k, data (step now ev bl) !! k <> None ->
            k ∈ (bIP <$> expiry (step now ev bl)).
Proof.
  intros Hcov k. destruct ev as [ip|]; simpl.
  - unfold Set_. destruct (data bl !! key ip) eqn:E; [apply Hcov|]. simpl.
    rewrite fmap_app. intros Hk. apply elem_of_app.
    destruct (decide (key ip = k)) as [<-|Hne]; [right; by left|left].
    rewrite lookup_insert_ne in Hk by done. by apply Hcov.
  - destruct (expire_loop_spec now (expiry bl) (data bl))
      as (gone & Heq & _ & _ & Hdel & Hkeep).
    rewrite data_expire, expiry_expire. intros Hk.
    destruct (decide (k ∈ (bIP <$> gone))) as [Hin|Hout].
    + exfalso. apply Hk, Hdel.
      apply list_elem_of_fmap in Hin as (e & -> & Hin). by exists e.
    + rewrite Hkeep in Hk
        by (intros e Hin Hek; apply Hout, list_elem_of_fmap; by exists e).
      apply Hcov in Hk. rewrite Heq, fmap_app in Hk.
      apply elem_of_app in Hk as [Hk|Hk]; [done|exact Hk].
Qed.

Lemma covered_run (tr : list (Z * event)) :
  forall bl, (forall k, data bl !! k <> None -> k ∈ (bIP <$> expiry bl)) ->
    forall k, data (run tr bl) !! k <> None -> k ∈ (bIP <$> expiry (run tr bl)).
Proof.
  induction tr as [|[t ev] tr IH]; intros bl Hcov; simpl; [exact Hcov|].
  apply IH. by apply covered_step.
Qed.

Lemma map_fmap_list {A B} (f : A -> B) (l : list A) : map f l = f <$> l.
Proof. induction l as [|x l IH]; simpl; [done|]. by rewrite IH. Qed.

(** X1. In a blacklist driven by [Set] and [expire] at clock readings that
    never decrease, the addresses in [data] are the addresses of the
    expiry list, each listed once: [Size] is the length of the list. *)
Theorem Size_is_expiry_length (ttl0 ei : Z) (tr : list (Z * event)) :
  chronological tr = true ->
  let bl := run tr (NewBlacklist ttl0 ei) in
  Size bl = length (expiry bl) /\
  forall ip, IsBlacklisted bl ip = true <->
             exists e, In e (expiry bl) /\ bIP e = key ip.
Proof.
  intros Hc bl. destruct (reachable_inv ttl0 ei tr Hc) as (T & _ & _ & Hd & Hn).
  fold bl in Hd, Hn.
  assert (forall k, data bl !! k <> None -> k ∈ (bIP <$> expiry bl)) as Hcov.
  { apply covered_run. intros k Hk. simpl in Hk. by rewrite lookup_empty in Hk. }
  assert (forall k, data bl !! k <> None <-> k ∈ (bIP <$> expiry bl)) as Hiff.
  { intros k. split; [apply Hcov|]. intros Hk.
    apply list_elem_of_fmap in Hk as (e & -> & He).
    rewrite Forall_forall in Hd. by apply Hd. }
  split.
  - unfold Size. rewrite <- size_dom.
    assert (dom (data bl) = list_to_set (bIP <$> expiry bl)) as ->.
    { apply set_eq. intros k. rewrite elem_of_dom, elem_of_list_to_set, <- Hiff.
      rewrite <- not_eq_None_Some. done. }
    rewrite size_list_to_set by (by rewrite <- map_fmap_list).
    by rewrite length_fmap.
  - intros ip. rewrite IsBlacklisted_data, Hiff, list_elem_of_fmap. split.
    + intros (e & Hk & He). exists e. split; [by apply list_elem_of_In|done].
    + intros (e & He & Hk). exists e. split; [done|by apply list_elem_of_In].
Qed.

(** X2. A sweep at the instant [now] removes the entries that expired before
    [now] and no others, and an address stays blocked exactly when its
    entry stays. *)
Theorem expire_removes_the_expired (ttl0 ei : Z) (tr : list (Z * event)) (now : Z) :
  chronological tr = true ->
  let bl := run tr (NewBlacklist ttl0 ei) in
  (forall e, In e (expiry (expire now bl)) <-> In e (expiry bl) /\ now <= Expires e) /\
  (forall ip, IsBlacklisted (expire now bl) ip = true <->
     exists e, In e (expiry bl) /\ bIP e = key ip /\ now <= Expires e).
Proof.
  intros Hc bl. destruct (reachable_inv ttl0 ei tr Hc) as (T & Hs & _ & Hd & Hn).
  fold bl in Hs, Hd, Hn.
  assert (forall k, data bl !! k <> None -> k ∈ (bIP <$> expiry bl)) as Hcov.
  { apply covered_run. intros k Hk. simpl in Hk. by rewrite lookup_empty in Hk. }
  destruct (expire_loop_spec now (expiry bl) (data bl))
    as (gone & Heq & Hgone & Hhd & Hdel & Hkeep).
  rewrite expiry_expire. set (left_ := snd (expire_loop now (data bl) (expiry bl))) in *.
  assert (forall e, e ∈ left_ -> now <= Expires e) as Hleft.
  { rewrite Heq in Hs. apply sorted_suffix in Hs.
    destruct left_ as [|e0 l]; [intros e He; by apply elem_of_nil in He|].
    intros e He. pose proof (sorted_head_least e0 e l Hs He). lia. }
  assert (forall e, In e left_ <-> In e (expiry bl) /\ now <= Expires e) as Hin.
  { intros e. split.
    - intros He. split; [rewrite Heq; apply in_or_app; by right|].
      by apply Hleft, list_elem_of_In.
    - intros [He Hle]. rewrite Heq in He. apply in_app_or in He as [He|He]; [|done].
      rewrite Forall_forall in Hgone. apply list_elem_of_In, Hgone in He. lia. }
  split; [exact Hin|].
  intros ip. rewrite IsBlacklisted_data, data_expire. split.
  - intros Hk.
    destruct (decide (key ip ∈ (bIP <$> gone))) as [Hg|Hg].
    { exfalso. apply Hk, Hdel. apply list_elem_of_fmap in Hg as (e & E & He).
      exists e. by split. }
    rewrite Hkeep in Hk
      by (intros e He Hek; apply Hg, list_elem_of_fmap; by exists e).
    apply Hcov, list_elem_of_fmap in Hk as (e & Hek & He).
    exists e. rewrite Heq in He. apply elem_of_app in He as [He|He].
    { exfalso. apply Hg, list_elem_of_fmap. by exists e. }
    split; [apply Hin; by apply list_elem_of_In|]. split; [done|by apply Hleft].
  - intros (e & He & Hek & Hle).
    assert (In e left_) as Hl by (by apply Hin).
    rewrite Hkeep.
    + rewrite <- Hek. rewrite Forall_forall in Hd. apply Hd. by apply list_elem_of_In.
    + intros e' He' Hek'. rewrite Heq, map_app in Hn.
      apply NoDup_app in Hn as (_ & Hdisj & _). apply (Hdisj (key ip)).
      * apply list_elem_of_In, in_map_iff. exists e'. split; [done|by apply list_elem_of_In].
      * apply list_elem_of_In, in_map_iff. exists e. by split.
Qed.

(** X3. [Set] adds its address and touches no other: afterwards an address is
    reported exactly when it has the key of the one set or was reported
    before. *)
Theorem Set_then_IsBlacklisted (now : Z) (ip ip' : IP) (bl : t) :
  IsBlacklisted (Set_ now ip bl) ip' = true <->
  key ip' = key ip \/ IsBlacklisted bl ip' = true.
Proof.
  rewrite !IsBlacklisted_data. unfold Set_.
  destruct (data bl !! key ip) eqn:E; simpl.
  - split; [by right|]. intros [->|?]; [by rewrite E|done].
  - destruct (decide (key ip = key ip')) as [Heq|Hne].
    + rewrite Heq, lookup_insert_eq. split; [by left|done].
    + rewrite lookup_insert_ne by done. split; [by right|]. intros [?|?]; [congruence|done].
Qed.

End BlacklistMore.

Lemma Size_is_expiry_length_witness :
  let ip : IP := ParseIP "203.0.113.5" in
  let bl := Trace.run [(0, Trace.EvSet ip); (10, Trace.EvExpire); (20, Trace.EvSet ip)]
              (Blacklist.NewBlacklist 50 10) in
  Blacklist.Size bl = length (Blacklist.expiry bl).
Proof.
  intros ip bl.
  apply (Size_is_expiry_length 50 10
           [(0, Trace.EvSet ip); (10, Trace.EvExpire); (20, Trace.EvSet ip)]).
  reflexivity.
Defined.

Lemma expire_removes_the_expired_witness :
  let ip : IP := ParseIP "203.0.113.5" in
  let bl := Trace.run [(0, Trace.EvSet ip)] (Blacklist.NewBlacklist 50 10) in
  let e := {| Blacklist.bIP := "203.0.113.5"; Blacklist.Expires := 50 |} in
  In e (Blacklist.expiry (Blacklist.expire 60 bl)) <->
  In e (Blacklist.expiry bl) /\ 60 <= Blacklist.Expires e.
Proof.
  intros ip bl e.
  exact (proj1 (expire_removes_the_expired 50 10 [(0, Trace.EvSet ip)] 60 eq_refl) e).
Defined.

(** ** More on the engine behind [NewHistory] *)

Section HistoryMore.
Context `{NetLib}.
Import History.

(** X4. [process] fails on the nil list exactly when the address has no list
    under [ip.String()] and the key [ip.To16().String()], under which the
    new list is stored, is another string. *)
Theorem process_panics_iff (req : Request) (h : t) :
  let ip := ReqIP req in
  ((exists msg, process req h = Panic msg) <->
   data h !! IP_String ip = None /\ IP_String (To16 ip) <> IP_String ip) /\
  (IP_String (To16 ip) = IP_String ip ->
   exists h', process req h = Done h' /\
     blacklist h' = blacklist h /\ currentSlot h' = currentSlot h /\
     data h' = <[IP_String ip :=
                  record_request (currentSlot h) (URL req)
                    (match data h !! IP_String ip with
                     | Some counts => counts
                     | None => []
                     end)]> (data h)).
Proof.
  intros ip. subst ip. unfold process. cbv zeta.
  set (k := IP_String (ReqIP req)). set (k16 := IP_String (To16 (ReqIP req))).
  split.
  - destruct (data h !! k) as [counts|] eqn:E; cbv beta iota.
    + match goal with |- context [match ?x with Some _ => _ | None => _ end] =>
        replace x with (Some counts) end.
      split; [by intros [? ?]|by intros [? _]].
    + destruct (decide (k16 = k)) as [Heq|Hne].
      * rewrite Heq, lookup_insert_eq. split; [by intros [? ?]|by intros [_ ?]].
      * rewrite lookup_insert_ne by done.
        match goal with |- context [match ?x with Some _ => _ | None => _ end] =>
          replace x with (@None (list HistoryItem)) end.
        split; [done|]. intros _. by eexists.
  - intros Heq. destruct (data h !! k) as [counts|] eqn:E; cbv beta iota.
    + match goal with |- context [match ?x with Some _ => _ | None => _ end] =>
        replace x with (Some counts) end.
      eexists. by repeat split.
    + rewrite Heq, lookup_insert_eq. eexists. repeat split; try done.
      simpl. by rewrite insert_insert_eq.
Qed.

Lemma calculate_ip_data (o : HistoryOptions) (cutoff : Z) (ip : string)
    (counts : list HistoryItem) (d d' : gmap string (list HistoryItem))
    (bl bl' : GoMap bool) :
  calculate_ip o cutoff ip counts (d, bl) = Done (d', bl') ->
  d' = IPHistory.expire_ip cutoff d (ip, counts).
Proof.
  unfold calculate_ip, IPHistory.expire_ip.
  destruct (count_requests (expire_old cutoff counts)) as [total app].
  destruct (block_condition _ _ total app); [destruct (map_set bl ip true)|];
    by intros [= <- _].
Qed.

Lemma calculate_range_data (o : HistoryOptions) (cutoff : Z)
    (entries : list (string * list HistoryItem)) :
  forall d d' bl', calculate_range o cutoff entries (d, nil_map) = Done (d', bl') ->
    d' = fold_left (IPHistory.expire_ip cutoff) entries d.
Proof.
  induction entries as [|[ip counts] more IH]; intros d d' bl'; cbn [calculate_range fold_left].
  - by intros [= <- _].
  - destruct (calculate_ip_nil o cutoff ip counts d) as [(d1 & E & _)|[E _]]; rewrite E.
    + intros Hr. apply IH in Hr. rewrite Hr. f_equal.
      by apply calculate_ip_data in E.
    + discriminate.
Qed.

Lemma calculate_range_done (o : HistoryOptions) (cutoff : Z)
    (entries : list (string * list HistoryItem)) :
  (forall ip counts, In (ip, counts) entries ->
     let '(total, app) := count_requests (expire_old cutoff counts) in
     block_condition (MaxRequests o) (MaxRatio o) total app = false) ->
  forall d, exists d', calculate_range o cutoff entries (d, nil_map) = Done (d', nil_map).
Proof.
  induction entries as [|[ip counts] more IH]; intros Hall d; cbn [calculate_range].
  - by eexists.
  - destruct (calculate_ip_nil o cutoff ip counts d) as [(d1 & -> & _)|[_ Hc]].
    + apply IH. intros ip' counts' Hin. apply (Hall ip' counts'). by right.
    + specialize (Hall ip counts (or_introl eq_refl)).
      destruct (count_requests (expire_old cutoff counts)) as [total app]. congruence.
Qed.

Lemma classic_qualifies (o : HistoryOptions) (cutoff : Z)
    (entries : list (string * list HistoryItem)) :
  (exists ip counts, In (ip, counts) entries /\
     let '(total, app) := count_requests (expire_old cutoff counts) in
     block_condition (MaxRequests o) (MaxRatio o) total app = true) \/
  (forall ip counts, In (ip, counts) entries ->
     let '(total, app) := count_requests (expire_old cutoff counts) in
     block_condition (MaxRequests o) (MaxRatio o) total app = false).
Proof.
  induction entries as [|[ip counts] more [(ip' & c' & Hin & Hq)|IH]].
  - right. by intros ? ? [].
  - left. exists ip', c'. split; [by right|exact Hq].
  - destruct (count_requests (expire_old cutoff counts)) as [total app] eqn:E.
    destruct (block_condition (MaxRequests o) (MaxRatio o) total app) eqn:Eb.
    + left. exists ip, counts. split; [by left|]. by rewrite E.
    + right. intros ip' c' [[= <- <-]|Hin]; [by rewrite E|by apply (IH ip' c')].
Qed.

(** X5. A run of [calculate] panics exactly when some address meets the block
    condition.  A run that returns has trimmed every list at the cutoff,
    dropped the lists left empty, and installed the [nil] map as
    blacklist. *)
Theorem calculate_panics_iff_some_address_qualifies (now : Z) (h : t) :
  let cutoff := now + (-1) * Window (options h) in
  (calculate now h = Panic "assignment to entry in nil map" <->
   exists ip counts, data h !! ip = Some counts /\
     let '(total, app) := count_requests (expire_old cutoff counts) in
     block_condition (MaxRequests (options h)) (MaxRatio (options h)) total app = true) /\
  (forall h', calculate now h = Done h' ->
     blacklist h' = nil_map /\ currentSlot h' = currentSlot h /\
     forall k, data h' !! k =
               match data h !! k with
               | None => None
               | Some counts => IPHistoryRuns.trimmed cutoff counts
               end).
Proof.
  intros cutoff. unfold calculate, calculate_in_order, new_Blacklist. fold cutoff.
  split.
  - split.
    + intros Hp.
      destruct (classic_qualifies (options h) cutoff (map_to_list (data h)))
        as [(ip & counts & Hin & Hq)|Hnone].
      * exists ip, counts. split; [by apply elem_of_map_to_list, list_elem_of_In|exact Hq].
      * destruct (calculate_range_done (options h) cutoff _ Hnone (data h)) as [d' E].
        rewrite E in Hp. discriminate.
    + intros (ip & counts & Hd & Hq).
      rewrite (calculate_range_panics (options h) cutoff _ ip counts); [done| |exact Hq].
      by apply list_elem_of_In, elem_of_map_to_list.
  - intros h' Hdone.
    pose proof (calculate_range_nil (options h) cutoff (map_to_list (data h)) (data h)) as Hnil.
    destruct (calculate_range _ _ _ _) as [[d bl]|msg] eqn:E; [|discriminate].
    injection Hdone as <-. subst bl. cbn [blacklist currentSlot data].
    split; [done|]. split; [done|]. intros k.
    apply calculate_range_data in E. subst d.
    destruct (expire_fold cutoff (map_to_list (data h)) (data h)) as [Hout Hin].
    { apply (NoDup_fst_map_to_list (data h)). }
    destruct (data h !! k) as [counts|] eqn:Ek.
    + apply Hin. by apply elem_of_map_to_list.
    + rewrite Hout; [exact Ek|]. intros Hk.
      apply list_elem_of_In, in_map_iff in Hk as ([k' c] & Hk & Hkc). simpl in Hk. subst k'.
      apply list_elem_of_In, elem_of_map_to_list in Hkc.
      unfold HistoryItem in *. congruence.
Qed.

End HistoryMore.

(** ** The front end on the histories it can meet *)

Section FrontEndMore.
Context `{NetLib}.
Import Main.

Lemma step_keeps_unblocked (o : HistoryRuns.op) (h : History.t) :
  (forall ip, History.IsBlacklisted h ip = false) ->
  match HistoryRuns.step o h with
  | Done h' => forall ip, History.IsBlacklisted h' ip = false
  | Panic _ => True
  end.
Proof.
  intros Hno. destruct o as [req|slot|now]; simpl.
  - unfold History.process.
    destruct (_ !! IP_String (ReqIP req)) as [counts|]; [|done]. exact Hno.
  - exact Hno.
  - destruct (History.calculate now h) as [h'|msg] eqn:E; [|done].
    intros ip. by eapply calculate_never_blocks.
Qed.

Lemma run_keeps_unblocked (ops : list HistoryRuns.op) :
  forall h, (forall ip, History.IsBlacklisted h ip = false) ->
    match HistoryRuns.run ops h with
    | Done h' => forall ip, History.IsBlacklisted h' ip = false
    | Panic _ => True
    end.
Proof.
  induction ops as [|o ops IH]; intros h Hno; simpl; [exact Hno|].
  pose proof (step_keeps_unblocked o h Hno) as Hs.
  destruct (HistoryRuns.step o h) as [h'|msg]; [by apply IH|done].
Qed.

(** X6. Whatever requests, clock ticks and decision runs a history made by
    [NewHistory] has been through without a panic, its blacklist holds no
    address, and the front end answers every line with [OK]. *)
Theorem front_end_always_answers_ok (ops : list HistoryRuns.op)
    (o : History.HistoryOptions) (slot : Z) :
  match HistoryRuns.run ops (History.NewHistory o slot) with
  | Done h =>
      (forall ip, History.IsBlacklisted h ip = false) /\
      (forall line, written (main_line NewIP h line) = [ok])
  | Panic _ => True
  end.
Proof.
  pose proof (run_keeps_unblocked ops (History.NewHistory o slot)) as Hrun.
  destruct (HistoryRuns.run ops (History.NewHistory o slot)) as [h|msg]; [|done].
  assert (forall ip, History.IsBlacklisted h ip = false) as Hno by (by apply Hrun).
  split; [exact Hno|]. intros line. unfold main_line.
  destruct (_ <? 2); [done|]. cbn [written]. f_equal.
  destruct (decide_ips_cases h (candidates NewIP (nth 0 (Split "|" line) "")
                                  (nth 1 (Split "|" line) ""))) as [Hok|Hb];
    [exact Hok|].
  apply decide_ips_block in Hb as (ip & _ & Hbl). rewrite Hno in Hbl. discriminate.
Qed.

(** X7. [IsPrivate] answers [true] exactly when [Network] finds a network, and
    the network found is the first of the list that contains the
    address. *)
Theorem IsPrivate_iff_Network (nets : list IPNet) (ip : IP) :
  (IsPrivate nets ip = true <-> exists n, Private.Network nets ip = Some n) /\
  (forall n, Private.Network nets ip = Some n ->
     exists before after, nets = before ++ n :: after /\ Contains n ip = true /\
       forall n', In n' before -> Contains n' ip = false).
Proof.
  induction nets as [|n0 nets [IH1 IH2]]; simpl.
  - split; [split; [discriminate|by intros [? ?]]|discriminate].
  - destruct (Contains n0 ip) eqn:E.
    + split; [split; [by eexists|done]|]. intros n [= <-].
      exists [], nets. split; [done|]. split; [done|]. by intros ? [].
    + split; [exact IH1|]. intros n Hn.
      destruct (IH2 n Hn) as (before & after & -> & Hc & Hb).
      exists (n0 :: before), after. split; [done|]. split; [done|].
      intros n' [<-|Hin]; [done|by apply Hb].
Qed.

End FrontEndMore.

(** ** Splitting a line *)

Lemma Split_nonempty (sep : ascii) (s : string) : Split sep s <> [].
Proof.
  destruct s as [|c s]; simpl; [done|].
  destruct (Ascii.eqb c sep); [done|]. by destruct (Split sep s).
Qed.

(** [Split] returns one field more than the separator occurs, and joining
    the fields with the separator gives the string back. *)
Lemma Split_length_and_Join (sep : ascii) (s : string) :
  length (Split sep s) = S (occurrences sep s) /\ Join sep (Split sep s) = s.
Proof.
  induction s as [|c s [IHl IHj]]; simpl; [done|].
  destruct (Ascii.eqb_spec c sep) as [->|Hne].
  - split; [simpl; by rewrite IHl|].
    pose proof (Split_nonempty sep s) as Hn.
    destruct (Split sep s) as [|f fs]; [done|].
    change (Join sep ("" :: f :: fs)) with ("" +:+ String sep (Join sep (f :: fs))).
    by rewrite sapp_nil_l, IHj.
  - pose proof (Split_nonempty sep s) as Hn.
    destruct (Split sep s) as [|f fs]; [done|]. split; [exact IHl|].
    destruct fs as [|g fs]; simpl in *; [by rewrite IHj|].
    rewrite sapp_cons. by rewrite IHj.
Qed.

(** X8. The front end takes a line for malformed, and answers [OK] without
    looking anything up, exactly when the line holds no [|]; every other
    line is answered from the blacklist. *)
Theorem main_line_malformed_iff_no_separator `{NetLib}
    (privIP : list IPNet) (h : History.t) (line : string) :
  let fields := Split "|" line in
  (occurrences "|" line = 0%nat ->
   Main.written (Main.main_line privIP h line) = [Main.ok]) /\
  (occurrences "|" line <> 0%nat ->
   Main.written (Main.main_line privIP h line) =
     [Main.decide_ips h
        (Main.candidates privIP (nth 0 fields "") (nth 1 fields ""))]).
Proof.
  intros fields. unfold Main.main_line. fold fields.
  destruct (Split_length_and_Join "|" line) as [Hlen _]. fold fields in Hlen.
  destruct (Z.ltb_spec (Z.of_nat (length fields)) 2); simpl; split; try done; lia.
Qed.

(** ** More on the engine behind [NewIPHistory] *)

Section IPHistoryMore.
Context `{NetLib}.
Import IPHistory IPHistoryRuns IPHistoryOps.

(** *** The loop [INNER] on any list *)

Lemma drop_expired_idem (cutoff : Z) (l : list IPHistoryItem) :
  drop_expired cutoff (drop_expired cutoff l) = drop_expired cutoff l.
Proof.
  induction l as [|x l IH]; simpl; [done|].
  destruct (After (Timestamp x) cutoff) eqn:E; [|exact IH]. simpl. by rewrite E.
Qed.

Lemma drop_expired_head (cutoff : Z) (l : list IPHistoryItem) :
  match drop_expired cutoff l with
  | [] => True
  | x :: _ => After (Timestamp x) cutoff = true
  end.
Proof.
  induction l as [|x l IH]; simpl; [done|].
  destruct (After (Timestamp x) cutoff) eqn:E; [exact E|exact IH].
Qed.

(** X9. The loop stops at the first bucket from the back that lies after the
    cutoff: what it leaves is a front part of the list that is empty or
    ends in such a bucket, nothing is removed when the last bucket lies
    after the cutoff, whatever lies before it, and a second pass removes
    nothing more. *)
Theorem expire_old_stops_at_last_fresh (cutoff : Z) (counts : list IPHistoryItem) :
  (exists gone, counts = expire_old cutoff counts ++ gone /\
     Forall (fun it => Timestamp it <= cutoff) gone) /\
  match last (expire_old cutoff counts) with
  | Some it => cutoff < Timestamp it
  | None => True
  end /\
  (forall front back, counts = front ++ [back] -> cutoff < Timestamp back ->
     expire_old cutoff counts = counts) /\
  expire_old cutoff (expire_old cutoff counts) = expire_old cutoff counts.
Proof.
  unfold expire_old. split; [|split; [|split]].
  - assert (forall l, exists g, l = g ++ drop_expired cutoff l /\
              Forall (fun it => Timestamp it <= cutoff) g) as Hsuf.
    { induction l as [|x l (g & Hg & Hall)]; simpl; [by exists []|].
      destruct (After (Timestamp x) cutoff) eqn:E; [by exists []|].
      exists (x :: g). split; [simpl; by f_equal|]. constructor; [|done].
      unfold After in E. apply Z.ltb_ge in E. exact E. }
    destruct (Hsuf (rev counts)) as (g & Hg & Hall). exists (rev g). split.
    + rewrite <- rev_app_distr, <- Hg. by rewrite rev_involutive.
    + apply Forall_forall. intros it Hin. rewrite Forall_forall in Hall. apply Hall.
      apply list_elem_of_In. apply list_elem_of_In in Hin. by apply in_rev.
  - pose proof (drop_expired_head cutoff (rev counts)) as Hh.
    destruct (drop_expired cutoff (rev counts)) as [|x l]; simpl; [done|].
    rewrite last_snoc. unfold After in Hh. by apply Z.ltb_lt.
  - intros front back -> Hb. rewrite rev_app_distr. simpl.
    unfold After. destruct (Z.ltb_spec cutoff (Timestamp back)); [|lia].
    change (back :: rev front) with (rev [back] ++ rev front).
    by rewrite <- rev_app_distr, rev_involutive.
  - by rewrite rev_involutive, drop_expired_idem.
Qed.

(** *** Totals *)

(** X10. [calculate] adds the counters up in [uint64]: the totals are the sums
    of [Count] and of [App], reduced modulo [2^64]. *)
Theorem count_requests_sums_modulo (counts : list IPHistoryItem) :
  count_requests counts =
  (Binary64.sum_Count counts mod 2 ^ 64, Binary64.sum_App counts mod 2 ^ 64).
Proof.
  unfold count_requests. rewrite count_from_wrap by apply in_range_0.
  by rewrite !Z.add_0_l.
Qed.

(** *** The sweep and the decision run on the map *)

Lemma trimmed_Some (cutoff : Z) (counts kept : list IPHistoryItem) :
  trimmed cutoff counts = Some kept ->
  kept <> [] /\ kept = expire_old cutoff counts.
Proof.
  unfold trimmed. destruct (expire_old cutoff counts) as [|x l]; simpl; [done|].
  intros [= <-]. done.
Qed.

(** X11. A sweep trims every list at the cutoff read when its turn began,
    deletes the lists it empties, and leaves the blacklist and the set of
    updated addresses alone; the instant at which the timer fires plays
    no part. *)
Theorem expire_trims_every_list (started fired : Z) (h : t) :
  (forall k, data (expire started fired h) !! k =
             match data h !! k with
             | None => None
             | Some counts => trimmed (started + (-1) * Window (options h)) counts
             end) /\
  (forall k, data (expire started fired h) !! k <> Some []) /\
  blacklist (expire started fired h) = blacklist h /\
  updatedIPs (expire started fired h) = updatedIPs h /\
  expire started fired h = expire started started h.
Proof.
  split; [apply expire_data|]. split; [|done].
  intros k. rewrite expire_data. destruct (data h !! k) as [counts|]; [|done].
  intros Hk. by apply trimmed_Some in Hk as [Hne _].
Qed.

Lemma calculate_state (now : Z) (set_at : string -> Z) (h : t) :
  let cutoff := now + (-1) * Window (options h) in
  updatedIPs (calculate now set_at h) = ∅ /\
  currentSlot (calculate now set_at h) = currentSlot h /\
  forall k, data (calculate now set_at h) !! k =
            match updatedIPs h !! k, data h !! k with
            | Some _, Some counts => trimmed cutoff counts
            | _, _ => data h !! k
            end.
Proof.
  intros cutoff. unfold calculate, calculate_in_order. fold cutoff.
  set (ips := map fst (map_to_list (updatedIPs h))).
  assert (NoDup ips) as Hnd by apply (NoDup_fst_map_to_list (updatedIPs h)).
  pose proof (calculate_fold (options h) cutoff set_at ips (data h) (blacklist h) Hnd)
    as (_ & Hout & Hin).
  destruct (fold_left _ ips _) as [d bl]. cbn [fst snd updatedIPs currentSlot data] in *.
  split; [done|]. split; [done|]. intros k.
  assert (k ∈ ips <-> is_Some (updatedIPs h !! k)) as Hk.
  { unfold ips. rewrite map_fmap_list, list_elem_of_fmap. split.
    - intros ([k' b] & -> & Hkb). apply elem_of_map_to_list in Hkb. by eexists.
    - intros [b Hb]. exists (k, b). split; [done|]. by apply elem_of_map_to_list. }
  destruct (updatedIPs h !! k) as [b|] eqn:E.
  - rewrite Hin by (apply Hk; by eexists). by destruct (data h !! k).
  - rewrite Hout; [by destruct (data h !! k)|]. intros Hc. apply Hk in Hc as [? ?]. done.
Qed.

(** X12. A decision run empties the set of updated addresses, trims the lists
    of those addresses only, and leaves every other list as it is, stale
    buckets included. *)
Theorem calculate_trims_updated_only (now : Z) (set_at : string -> Z) (h : t) :
  let cutoff := now + (-1) * Window (options h) in
  updatedIPs (calculate now set_at h) = ∅ /\
  currentSlot (calculate now set_at h) = currentSlot h /\
  forall k, data (calculate now set_at h) !! k =
            match updatedIPs h !! k, data h !! k with
            | Some _, Some counts => trimmed cutoff counts
            | _, _ => data h !! k
            end.
Proof. apply calculate_state. Qed.

End IPHistoryMore.

(** ** Invariants of the lists of buckets *)

Section IPHistoryInvariants.
Context `{NetLib}.
Import IPHistory IPHistoryRuns IPHistoryOps.

Lemma slots_ok_prefix (slot : Z) (l1 l2 : list IPHistoryItem) :
  slots_ok slot (l1 ++ l2) -> slots_ok slot l1.
Proof.
  intros [Hs Hall]. split.
  - by apply StronglySorted_app_1_l in Hs.
  - by apply Forall_app in Hall as [? _].
Qed.

Lemma slots_ok_later (slot slot' : Z) (counts : list IPHistoryItem) :
  slots_ok slot counts -> slot <= slot' -> slots_ok slot' counts.
Proof.
  intros [Hs Hall] Hle. split; [exact Hs|].
  eapply Forall_impl; [exact Hall|]. simpl. intros it ?. lia.
Qed.

Lemma record_request_slots_ok (slot : Z) (url : string) (counts : list IPHistoryItem) :
  slots_ok slot counts ->
  record_request slot url counts <> [] /\
  slots_ok slot (record_request slot url counts).
Proof.
  intros [Hs Hall]. unfold record_request, slots_ok, newest_first in *.
  destruct counts as [|head rest].
  - split; [done|]. split; repeat constructor. simpl. lia.
  - destruct (Z.eqb_spec (Timestamp head) slot) as [E|E].
    + split; [done|]. apply StronglySorted_inv in Hs as [Hs Hh].
      apply Forall_cons in Hall as [Hh1 Hall]. split.
      * constructor; [exact Hs|]. exact Hh.
      * constructor; [simpl; lia|exact Hall].
    + split; [done|]. pose proof Hs as Hs'. apply StronglySorted_inv in Hs' as [_ Hh].
      pose proof Hall as Hall'. apply Forall_cons in Hall' as [Hh1 _]. split.
      * constructor; [exact Hs|]. simpl. constructor; [lia|].
        eapply Forall_impl; [exact Hh|]. simpl. intros it ?. lia.
      * constructor; [simpl; lia|exact Hall].
Qed.

Lemma bump_counters_agree (c : Classification) (it : IPHistoryItem) :
  counters_agree it -> counters_agree (bump c it).
Proof.
  intros (Hc & Ha & Ho & Heq). unfold counters_agree, bump, U64.incr, U64.add.
  destruct c; cbn [Count App Other].
  - split; [apply wrap_range|]. split; [apply wrap_range|]. split; [exact Ho|].
    rewrite wrap_add_l, Heq, wrap_add_l. f_equal. lia.
  - split; [apply wrap_range|]. split; [exact Ha|]. split; [apply wrap_range|].
    rewrite Heq, wrap_add_l.
    replace (App it + U64.wrap (Other it + 1)) with (U64.wrap (Other it + 1) + App it) by lia.
    rewrite wrap_add_l. f_equal. lia.
Qed.

Lemma fresh_counters_agree (slot : Z) : counters_agree (fresh_item slot).
Proof.
  unfold counters_agree, fresh_item. cbn [Count App Other].
  split; [apply in_range_0|]. split; [apply in_range_0|]. split; [apply in_range_0|done].
Qed.

Lemma record_request_counters_agree (slot : Z) (url : string)
    (counts : list IPHistoryItem) :
  Forall counters_agree counts ->
  Forall counters_agree (record_request slot url counts).
Proof.
  intros Hall. unfold record_request. destruct counts as [|head rest].
  - constructor; [|done]. apply bump_counters_agree, fresh_counters_agree.
  - destruct (Timestamp head =? slot).
    + apply Forall_cons in Hall as [Hh Hall].
      constructor; [by apply bump_counters_agree|exact Hall].
    + constructor; [|exact Hall]. apply bump_counters_agree, fresh_counters_agree.
Qed.

(** Where a list of a later state comes from: it is a front part of the
    list the address had before, unless the step is the request that
    recorded into it. *)
Lemma step_list_origin (o : op) (h : t) (k : string) (counts : list IPHistoryItem) :
  data (step o h) !! k = Some counts ->
  counts <> [] /\
  ((exists req, o = Process req /\ Blacklist.key (ReqIP req) = k /\
      counts = record_request (currentSlot h) (URL req)
                 (match data h !! k with Some c => c | None => [] end)) \/
   (exists old gone, data h !! k = Some old /\ old = counts ++ gone) \/
   False) \/
  data h !! k = Some counts.
Proof.
  destruct o as [req|slot|now set_at|started fired]; cbn [step].
  - destruct (decide (Blacklist.key (ReqIP req) = k)) as [Heq|Hne].
    + rewrite <- Heq at 1. rewrite process_same, Heq. intros [= <-]. left. split.
      * unfold record_request. destruct (match _ with Some c => c | None => [] end) as [|x l];
          [done|by destruct (_ =? _)].
      * left. exists req. by repeat split.
    + rewrite process_other by done. by right.
  - by right.
  - pose proof (calculate_state now set_at h) as (_ & _ & Hd).
    rewrite Hd. destruct (updatedIPs h !! k); [|by right].
    destruct (data h !! k) as [old|] eqn:E; [|done].
    intros Ht. apply trimmed_Some in Ht as [Hne ->]. left. split; [exact Hne|].
    right. left. destruct (expire_old_prefix (now + -1 * Window (options h)) old) as [gone Hg].
    by exists old, gone.
  - rewrite expire_data. destruct (data h !! k) as [old|] eqn:E; [|done].
    intros Ht. apply trimmed_Some in Ht as [Hne ->]. left. split; [exact Hne|].
    right. left. destruct (expire_old_prefix (started + -1 * Window (options h)) old) as [gone Hg].
    by exists old, gone.
Qed.

Lemma currentSlot_step (o : op) (h : t) :
  currentSlot (step o h) =
  match o with SetTimestamp slot => slot | _ => currentSlot h end.
Proof.
  destruct o as [req|slot|now set_at|started fired]; try reflexivity.
  by destruct (calculate_state now set_at h) as (_ & ? & _).
Qed.

Lemma run_lists_newest_first (ops : list op) (o : IPHistoryOptions) (slot : Z) :
  slots_forward slot ops = true ->
  let h := run ops (NewIPHistory o slot) in
  forall k counts, data h !! k = Some counts ->
    counts <> [] /\ newest_first counts /\
    Forall (fun it => Timestamp it <= currentSlot h) counts.
Proof.
  intros Hfw h.
  assert (forall ops h0,
            (forall k c, data h0 !! k = Some c -> c <> [] /\ slots_ok (currentSlot h0) c) ->
            slots_forward (currentSlot h0) ops = true ->
            forall k c, data (run ops h0) !! k = Some c ->
                        c <> [] /\ slots_ok (currentSlot (run ops h0)) c) as Hrun.
  { clear. induction ops as [|op ops IH]; intros h0 Hgood Hfw; [exact Hgood|].
    unfold run in *. cbn [fold_left]. apply IH.
    - intros k c Hk. pose proof (currentSlot_step op h0) as Hcs.
      apply step_list_origin in Hk as [[Hne [(req & -> & Hkey & ->)|[(old & gone & Ho & ->)|[]]]]|Hk].
      + rewrite Hcs. destruct (data h0 !! k) as [c0|] eqn:E.
        * by apply record_request_slots_ok, (Hgood k).
        * apply record_request_slots_ok. split; constructor.
      + split; [exact Hne|]. destruct (Hgood k _ Ho) as [_ Hok].
        apply slots_ok_prefix in Hok. eapply slots_ok_later; [exact Hok|].
        rewrite Hcs. destruct op; try lia. simpl in Hfw.
        apply andb_true_iff in Hfw as [Hle _]. by apply Z.leb_le.
      + destruct (Hgood k c Hk) as [Hne Hok]. split; [exact Hne|].
        eapply slots_ok_later; [exact Hok|].
        rewrite Hcs. destruct op; try lia. simpl in Hfw.
        apply andb_true_iff in Hfw as [Hle _]. by apply Z.leb_le.
    - rewrite currentSlot_step. destruct op; simpl in Hfw; try exact Hfw.
      by apply andb_true_iff in Hfw as [_ ?]. }
  intros k counts Hk.
  destruct (Hrun ops (NewIPHistory o slot)) with (k := k) (c := counts) as [Hne [Hs Hall]];
    try done.
Qed.

(** X13. In every state that the engine reaches while its slot clock does not
    go back, no address has an empty list, every list is newest first
    with strictly decreasing slots, and no bucket is of a slot after the
    current one. *)
Theorem lists_stay_newest_first (ops : list op) (o : IPHistoryOptions) (slot : Z) :
  slots_forward slot ops = true ->
  let h := run ops (NewIPHistory o slot) in
  forall k counts, data h !! k = Some counts ->
    counts <> [] /\ newest_first counts /\
    Forall (fun it => Timestamp it <= currentSlot h) counts.
Proof. apply run_lists_newest_first. Qed.

(** X14. In every state that the engine reaches, the counters of each bucket
    agree in [uint64] arithmetic: [Count] is [App + Other] modulo
    [2^64]. *)
Theorem counters_always_agree (ops : list op) (o : IPHistoryOptions) (slot : Z) :
  forall k counts, data (run ops (NewIPHistory o slot)) !! k = Some counts ->
    Forall counters_agree counts.
Proof.
  assert (forall ops h0,
            (forall k c, data h0 !! k = Some c -> Forall counters_agree c) ->
            forall k c, data (run ops h0) !! k = Some c -> Forall counters_agree c) as Hrun.
  { clear. induction ops as [|op ops IH]; intros h0 Hgood; [exact Hgood|].
    unfold run in *. cbn [fold_left]. apply IH.
    intros k c Hk.
    apply step_list_origin in Hk as [[Hne [(req & -> & Hkey & ->)|[(old & gone & Ho & ->)|[]]]]|Hk].
    - apply record_request_counters_agree.
      destruct (data h0 !! k) as [c0|] eqn:E; [by apply (Hgood k)|constructor].
    - apply Hgood in Ho. by apply Forall_app in Ho as [? _].
    - by apply (Hgood k). }
  apply Hrun. intros k c Hk. simpl in Hk. by rewrite lookup_empty in Hk.
Qed.

(** X15. While the slot clock does not go back, a decision run at [now] leaves
    an updated address with buckets of slots after [now - Window] only:
    its totals count no older bucket. *)
Theorem decision_run_counts_fresh_buckets_only (ops : list op)
    (o : IPHistoryOptions) (slot now : Z) (set_at : string -> Z) :
  slots_forward slot ops = true ->
  let h := run ops (NewIPHistory o slot) in
  forall k counts, updatedIPs h !! k <> None -> data h !! k = Some counts ->
    expire_old (now + (-1) * Window (options h)) counts =
      List.filter (fun it => After (Timestamp it) (now + (-1) * Window (options h))) counts /\
    forall kept, data (calculate now set_at h) !! k = Some kept ->
      kept = expire_old (now + (-1) * Window (options h)) counts /\
      Forall (fun it => now - Window (options h) < Timestamp it) kept.
Proof.
  intros Hfw h k counts Hu Hd.
  destruct (run_lists_newest_first ops o slot Hfw k counts Hd) as (_ & Hs & _).
  pose proof (expire_old_newest_first (now + -1 * Window (options h)) counts Hs) as Hf.
  split; [exact Hf|]. intros kept Hk.
  pose proof (calculate_state now set_at h) as (_ & _ & Hdata).
  rewrite Hdata, Hd in Hk. destruct (updatedIPs h !! k); [|done].
  apply trimmed_Some in Hk as [_ ->]. split; [done|].
  rewrite Hf. apply Forall_forall. intros it Hin.
  apply list_elem_of_In, filter_In in Hin as [_ Ha]. unfold After in Ha.
  apply Z.ltb_lt in Ha. lia.
Qed.

(** X16. [process] adds at most one address to the map: [NumIPs] grows by one
    for an address without a list and stays for any other. *)
Theorem NumIPs_process (req : Request) (h : t) :
  Counters.NumIPs (process req h) =
  match data h !! Blacklist.key (ReqIP req) with
  | Some _ => Counters.NumIPs h
  | None => S (Counters.NumIPs h)
  end.
Proof.
  unfold Counters.NumIPs, process. cbn [data].
  destruct (data h !! Blacklist.key (ReqIP req)) as [counts|] eqn:E.
  - rewrite <- (insert_delete_eq (data h)), map_size_insert_None by apply lookup_delete_eq.
    rewrite <- (insert_id (data h) _ _ E) at 2.
    rewrite <- (insert_delete_eq (data h)), map_size_insert_None by apply lookup_delete_eq.
    done.
  - by rewrite map_size_insert_None.
Qed.

End IPHistoryInvariants.

Lemma lists_stay_newest_first_witness :
  [bucket_of 60; bucket_of 0] <> [] /\
  IPHistoryRuns.newest_first [bucket_of 60; bucket_of 0] /\
  Forall (fun it => Timestamp it <=
            IPHistory.currentSlot
              (IPHistoryOps.run two_slots (IPHistory.NewIPHistory sweep_options 0)))
    [bucket_of 60; bucket_of 0].
Proof.
  apply (lists_stay_newest_first two_slots sweep_options 0 eq_refl "203.0.113.5").
  reflexivity.
Defined.

Lemma counters_always_agree_witness :
  Forall IPHistoryOps.counters_agree [bucket_of 60; bucket_of 0].
Proof.
  apply (counters_always_agree two_slots sweep_options 0 "203.0.113.5").
  reflexivity.
Defined.

Lemma decision_run_counts_fresh_buckets_only_witness :
  let h := IPHistoryOps.run two_slots (IPHistory.NewIPHistory sweep_options 0) in
  expire_old (65 + (-1) * IPHistory.Window (IPHistory.options h))
    [bucket_of 60; bucket_of 0] =
  List.filter (fun it => After (Timestamp it)
                 (65 + (-1) * IPHistory.Window (IPHistory.options h)))
    [bucket_of 60; bucket_of 0].
Proof.
  intros h.
  assert (IPHistory.updatedIPs h !! "203.0.113.5" <> None) as Hu
    by (vm_compute; discriminate).
  assert (IPHistory.data h !! "203.0.113.5" = Some [bucket_of 60; bucket_of 0]) as Hd
    by reflexivity.
  exact (proj1 (decision_run_counts_fresh_buckets_only two_slots sweep_options 0 65
                  (fun _ => 65) eq_refl "203.0.113.5" [bucket_of 60; bucket_of 0] Hu Hd)).
Defined.
